(** * Inverted pendulum under a Mamdani fuzzy controller (TP2/TP2.py)

    A shallow embedding of [TP2.py] and the properties of its angle
    normalisation, pendulum dynamics, fuzzy inference and simulation loop.

    Numbers.  The program computes with IEEE double precision numbers; here
    every such number is a real number of [R] and the arithmetic is exact:
    rounding, infinities and NaN are outside the model.  [np.pi] is [PI],
    [np.sin]/[np.cos] are [sin]/[cos].  At the ends of the interval of the
    normalisation rounding changes a result by a whole turn; there the
    program is evaluated in binary64 itself (module [B64]).

    Shared object.  [simulador] is one module-level object that every call
    of [calcular_fuerza] mutates; it is modelled as an explicit store
    ([Simulacion]) that every call receives and returns. *)

From Stdlib Require Import Reals Lra Lia ZArith List.
From Stdlib Require Floats.
From stdpp Require Import base strings gmap.

Open Scope R_scope.

(** ** 1. Physical parameters (TP2.py, lines 9-15) *)

Definition gravedad : R := 981 / 100.
Definition masa_carro : R := 1.
Definition masa_pendulo : R := 2 / 10.
Definition longitud : R := 5 / 10.
Definition paso_tiempo : R := 1 / 100.
Definition tiempo_simulacion : R := 15.

(** Python's [int(x)] on a float: truncation towards zero. *)
Definition int_ (x : R) : Z :=
  if Rle_dec 0 x then Zfloor x else Zceil x.

Definition pasos : nat := Z.to_nat (int_ (tiempo_simulacion / paso_tiempo)).

(** ** 2. Angle normalisation (TP2.py, lines 76-78) *)

(** Python's [x % y] on floats: the remainder of the floored division, which
    has the sign of [y].  (The program only divides by [2*np.pi].)  This is
    the exact remainder, in [[0, y)]; the binary64 remainder of the program,
    which can round up to [y] itself, is [B64.mod_]. *)
Definition mod_ (x y : R) : R := x - IZR (Zfloor (x / y)) * y.

Definition normalizar_angulo (angulo_rad : R) : R :=
  mod_ (angulo_rad + PI) (2 * PI) - PI.

(** [np.radians] and [np.degrees]. *)
Definition radians (x : R) : R := x * PI / 180.
Definition degrees (x : R) : R := x * 180 / PI.

(** ** 3. Pendulum dynamics (TP2.py, lines 80-85) *)

Definition calcular_aceleracion_angular
    (angulo_rad velocidad fuerza_aplicada : R) : R :=
  let angulo_norm := normalizar_angulo angulo_rad in
  let numerador :=
    gravedad * sin angulo_norm
    + cos angulo_norm
      * ((- fuerza_aplicada
          - masa_pendulo * longitud * velocidad ^ 2 * sin angulo_norm)
         / (masa_carro + masa_pendulo)) in
  let denominador :=
    longitud
    * (4 / 3 - (masa_pendulo * cos angulo_norm ^ 2)
               / (masa_carro + masa_pendulo)) in
  numerador / denominador.

(** ** 4. Fuzzy variables and rule base (TP2.py, lines 20-65) *)

(** The five linguistic labels ['NG'], ['NP'], ['Z'], ['PP'], ['PG'];
    the label ['Z'] is spelled [ZE] to keep it apart from the integers. *)
Inductive Etiqueta : Type := NG | NP | ZE | PP | PG.

Definition Etiqueta_eqb (l1 l2 : Etiqueta) : bool :=
  match l1, l2 with
  | NG, NG | NP, NP | ZE, ZE | PP, PP | PG, PG => true
  | _, _ => false
  end.

Definition etiquetas : list Etiqueta := [NG; NP; ZE; PP; PG].

(** Modelled from the spec: [fuzz.trimf] of scikit-fuzzy is not part of the
    repository.  Section 4.1: linear ramp up from [a] to [b], linear ramp
    down from [b] to [c], zero outside, 1 at [x = b] (also when a ramp
    degenerates to a step). *)
Definition trimf (x a b c : R) : R :=
  if Req_dec_T x b then 1
  else if Rlt_dec a x then
    if Rlt_dec x b then (x - a) / (b - a)
    else if Rlt_dec x c then (c - x) / (c - b)
    else 0
  else 0.

(** Modelled from the spec: [fuzz.trapmf] of scikit-fuzzy is not part of
    the repository.  Section 4.1: ramp up over [[a,b]], plateau at 1 over
    [[b,c]], ramp down over [[c,d]], zero outside. *)
Definition trapmf (x a b c d : R) : R :=
  if Rlt_dec x a then 0
  else if Rlt_dec d x then 0
  else if Rlt_dec x b then trimf x a b b
  else if Rlt_dec c x then trimf x c c d
  else 1.

(** [angulo['NG']] ... [angulo['PG']] (lines 26-30). *)
Definition angulo (l : Etiqueta) (x : R) : R :=
  match l with
  | NG => trapmf x (- (5 / 2) * PI) (- (5 / 2) * PI) (- PI) (- radians 150)
  | NP => trimf x (- PI) (- radians 90) 0
  | ZE => trimf x (- radians 30) 0 (radians 30)
  | PP => trimf x 0 (radians 90) PI
  | PG => trapmf x (radians 150) PI (5 / 2 * PI) (5 / 2 * PI)
  end.

(** [velocidad_angular['NG']] ... (lines 33-37). *)
Definition velocidad_angular (l : Etiqueta) (x : R) : R :=
  match l with
  | NG => trapmf x (-10) (-10) (-4) (-1)
  | NP => trimf x (-4) (-1) 0
  | ZE => trimf x (-1) 0 1
  | PP => trimf x 0 1 4
  | PG => trapmf x 1 4 10 10
  end.

(** [fuerza['NG']] ... (lines 40-44). *)
Definition fuerza (l : Etiqueta) (x : R) : R :=
  match l with
  | NG => trapmf x (-50) (-50) (-20) (-10)
  | NP => trimf x (-20) (-10) 0
  | ZE => trimf x (-10) 0 10
  | PP => trimf x 0 10 20
  | PG => trapmf x 10 20 50 50
  end.

(** [np.arange(start, stop, step)]: the [ceil((stop - start) / step)] values
    [start + i * step]. *)
Definition arange (start stop step : R) : list R :=
  map (fun i : nat => start + IZR (Z.of_nat i) * step)
      (seq 0 (Z.to_nat (Zceil ((stop - start) / step)))).

(** The sampling universe of the consequent (line 22). *)
Definition universo_fuerza : list R := arange (-50) 50 (1 / 2).

(** A rule [ctrl.Rule(angulo[la] & velocidad_angular[lv], fuerza[lf])]. *)
Record Regla : Type := Rule {
  antecedente_angulo : Etiqueta;
  antecedente_velocidad : Etiqueta;
  consecuente : Etiqueta
}.

Definition reglas : list Regla := [
  Rule NG NG PG;
  Rule NG NP PG;
  Rule NG ZE PP;
  Rule NP NG PG;
  Rule NP NP PP;
  Rule NP ZE PP;
  Rule ZE NG PP;
  Rule ZE NP PP;
  Rule ZE ZE ZE;
  Rule PP ZE NP;
  Rule PP PP NP;
  Rule PP PG NG;
  Rule PG ZE NP;
  Rule PG PP NG;
  Rule PG PG NG
].

(** ** 5. The inference engine behind [simulador.compute()] *)

(** Modelled from the spec: the engine ([ctrl.ControlSystemSimulation] of
    scikit-fuzzy) is not part of the repository.  Section 4.4, step 2: the
    firing strength of a rule is the minimum of the two membership degrees. *)
Definition disparo (r : Regla) (a v : R) : R :=
  Rmin (angulo (antecedente_angulo r) a)
       (velocidad_angular (antecedente_velocidad r) v).

Definition maximo (l : list R) : R := fold_right Rmax 0 l.
Definition suma (l : list R) : R := fold_right Rplus 0 l.

(** Modelled from the spec: section 4.4, step 3: the strength of an output
    label is the maximum over the rules that conclude it. *)
Definition activacion (l : Etiqueta) (a v : R) : R :=
  maximo (map (fun r => disparo r a v)
              (List.filter (fun r => Etiqueta_eqb (consecuente r) l) reglas)).

(** Modelled from the spec: section 4.4, steps 3-4: the pointwise maximum
    of the five output membership functions, each clipped at its
    strength. *)
Definition agregada (a v : R) (u : R) : R :=
  maximo (map (fun l => Rmin (activacion l a v) (fuerza l u)) etiquetas).

(** Modelled from the spec: section 4.4, step 4: the centroid
    [Σ u·μ(u) / Σ μ(u)] over the sampled points of the output universe;
    there is no centroid ([None]) when the denominator is zero. *)
Definition centroide (mu : R -> R) (universo : list R) : option R :=
  let den := suma (map mu universo) in
  if Req_dec_T den 0 then None
  else Some (suma (map (fun u => u * mu u) universo) / den).

(** ** 6. The shared simulator object (TP2.py, lines 70-71) *)

(** [simulador.input] and [simulador.output] are dictionaries keyed by the
    names of the variables. *)
Record Simulacion : Type := {
  input : gmap string R;
  output : gmap string R
}.

(** The state of [simulador] when the module has been loaded. *)
Definition simulador : Simulacion := {| input := ∅; output := ∅ |}.

(** Computations over the shared simulator that may raise. *)
Inductive Resultado (A : Type) : Type :=
  | Valor (a : A)
  | Excepcion.
Arguments Valor {A} a.
Arguments Excepcion {A}.

Definition M (A : Type) : Type := Simulacion -> Resultado A * Simulacion.

Definition ret {A} (a : A) : M A := fun s => (Valor a, s).
Definition raise {A} : M A := fun s => (Excepcion, s).
Definition bind {A B} (m : M A) (k : A -> M B) : M B :=
  fun s => match m s with
           | (Valor a, s') => k a s'
           | (Excepcion, s') => (Excepcion, s')
           end.
(** [try: m except: h] with a bare [except]. *)
Definition try_except {A} (m : M A) (h : M A) : M A :=
  fun s => match m s with
           | (Valor a, s') => (Valor a, s')
           | (Excepcion, s') => h s'
           end.

Notation "x <~ m ;; k" := (bind m (fun x => k))
  (at level 100, m at next level, right associativity).
Notation "m ;;; k" := (bind m (fun _ => k))
  (at level 100, right associativity).

(** [simulador.input[clave] = x] *)
Definition set_input (clave : string) (x : R) : M unit :=
  fun s => (Valor tt, {| input := <[clave := x]> (input s);
                         output := output s |}).

(** [simulador.output[clave]]; a missing key raises [KeyError]. *)
Definition get_output (clave : string) : M R :=
  fun s => match output s !! clave with
           | Some x => ret x s
           | None => raise s
           end.

(** Modelled from the spec: [simulador.compute()] of scikit-fuzzy is not
    part of the repository.  Section 4.4: a function of the two current
    inputs alone; it raises when an input is missing or when the aggregated
    membership has no centroid, and otherwise stores the crisp force in
    [output['fuerza']]. *)
Definition compute : M unit :=
  fun s =>
    match input s !! "ángulo", input s !! "velocidad_angular" with
    | Some a, Some v =>
        match centroide (agregada a v) universo_fuerza with
        | Some f => ret tt {| input := input s;
                              output := <["fuerza" := f]> (output s) |}
        | None => raise s
        end
    | _, _ => raise s
    end.

(** ** 7. The controller (TP2.py, lines 87-100) *)

Definition calcular_fuerza (angulo_rad velocidad : R) : M R :=
  let angulo_norm := normalizar_angulo angulo_rad in
  set_input "ángulo" angulo_norm ;;;
  set_input "velocidad_angular" velocidad ;;;
  try_except
    (compute ;;; get_output "fuerza")
    (ret 0).

(** ** 8. The simulation loop (TP2.py, lines 105-126) *)

(** The variables of [simular] that the loop updates. *)
Record Estado : Type := {
  angulo_actual : R;
  velocidad_actual : R;
  historial_angulos : list R;
  historial_velocidades : list R;
  historial_fuerzas : list R
}.

(** The body of the [for] loop (lines 115-126). *)
Definition paso (e : Estado) : M Estado :=
  fuerza_aplicada <~ calcular_fuerza (angulo_actual e) (velocidad_actual e) ;;
  let aceleracion_angular :=
    calcular_aceleracion_angular
      (angulo_actual e) (velocidad_actual e) fuerza_aplicada in
  let velocidad_actual' :=
    velocidad_actual e + aceleracion_angular * paso_tiempo in
  let angulo_actual' :=
    angulo_actual e
    + (velocidad_actual' * paso_tiempo
       + 5 / 10 * aceleracion_angular * paso_tiempo ^ 2) in
  ret {| angulo_actual := angulo_actual';
         velocidad_actual := velocidad_actual';
         historial_angulos :=
           historial_angulos e ++ [degrees (normalizar_angulo angulo_actual')];
         historial_velocidades :=
           historial_velocidades e ++ [degrees velocidad_actual'];
         historial_fuerzas := historial_fuerzas e ++ [fuerza_aplicada] |}.

(** [for _ in range(n): paso] *)
Fixpoint repetir (n : nat) (e : Estado) : M Estado :=
  match n with
  | O => ret e
  | S n' => e' <~ paso e ;; repetir n' e'
  end.

(** The variables of [simular] before the loop (lines 106-111). *)
Definition estado_inicial (angulo_inicial_grados velocidad_inicial : R)
    : Estado :=
  {| angulo_actual := radians angulo_inicial_grados;
     velocidad_actual := velocidad_inicial;
     historial_angulos := [];
     historial_velocidades := [];
     historial_fuerzas := [] |}.

(** [simular], up to the plotting of the three histories. *)
Definition simular (angulo_inicial_grados velocidad_inicial : R) : M Estado :=
  repetir pasos (estado_inicial angulo_inicial_grados velocidad_inicial).

(** The run of the module (line 157): [simular(angulo_inicial_grados=175)],
    with the default initial velocity 0. *)
Definition ejecucion : M Estado := simular 175 0.

(** ** 9. Pure readings of the controller and of one iteration *)

(** The force that [calcular_fuerza] returns, as a function of its two
    arguments (see [calcular_fuerza_inferir]). *)
Definition inferir (angulo_rad velocidad : R) : R :=
  match centroide (agregada (normalizar_angulo angulo_rad) velocidad)
                  universo_fuerza with
  | Some f => f
  | None => 0
  end.

(** The pair (angle, velocity) after one iteration of the loop. *)
Definition siguiente (x : R * R) : R * R :=
  let F := inferir (fst x) (snd x) in
  let acc := calcular_aceleracion_angular (fst x) (snd x) F in
  (fst x + ((snd x + acc * paso_tiempo) * paso_tiempo
            + 5 / 10 * acc * paso_tiempo ^ 2),
   snd x + acc * paso_tiempo).

(** The pair (angle, velocity) at the start of iteration [n]. *)
Definition trayectoria (n : nat) (x0 : R * R) : R * R :=
  Nat.iter n siguiente x0.

(** The force, angle and velocity recorded by iteration [i] of a run that
    starts at [x]. *)
Definition fuerza_en (x : R * R) (i : nat) : R :=
  inferir (fst (trayectoria i x)) (snd (trayectoria i x)).
Definition angulo_en (x : R * R) (i : nat) : R :=
  degrees (normalizar_angulo (fst (trayectoria (S i) x))).
Definition velocidad_en (x : R * R) (i : nat) : R :=
  degrees (snd (trayectoria (S i) x)).

(** Sample [i] of the force universe. *)
Definition punto (i : nat) : R := -50 + IZR (Z.of_nat i) * (1 / 2).

(** The label on the other side of zero. *)
Definition espejo (l : Etiqueta) : Etiqueta :=
  match l with
  | NG => PG
  | NP => PP
  | ZE => ZE
  | PP => NP
  | PG => NG
  end.

(** The two rules of [reglas] whose mirror images, (Z, PG -> NP) and
    (Z, PP -> NP), are not in [reglas]. *)
Definition reglas_sin_espejo : list Regla := [Rule ZE NG PP; Rule ZE NP PP].

(** The rules that have no mirror image do not fire at [(a, v)] nor at
    [(- a, - v)]. *)
Definition sin_espejo_inactivas (a v : R) : Prop :=
  forall r, In r reglas_sin_espejo ->
            disparo r a v = 0 /\ disparo r (- a) (- v) = 0.

(** ** 9b. Further definitions of the module and of its readings *)


(** The mirror image of a rule. *)
Definition espejo_regla (r : Regla) : Regla :=
  Rule (espejo (antecedente_angulo r)) (espejo (antecedente_velocidad r))
       (espejo (consecuente r)).

Definition Regla_eqb (r1 r2 : Regla) : bool :=
  Etiqueta_eqb (antecedente_angulo r1) (antecedente_angulo r2)
  && Etiqueta_eqb (antecedente_velocidad r1) (antecedente_velocidad r2)
  && Etiqueta_eqb (consecuente r1) (consecuente r2).

(** Whether a rule is one of [reglas]. *)
Definition en_reglas (r : Regla) : bool := existsb (Regla_eqb r) reglas.

(** The peak of the three triangular sets of the force (lines 41-43). *)
Definition pico (l : Etiqueta) : R :=
  match l with
  | NP => -10
  | PP => 10
  | _ => 0
  end.

(** ** 9c. The controller over an arbitrary engine *)

(** [calcular_fuerza] with the library call [simulador.compute()] as a
    parameter: [calcular_fuerza] is [calcular_fuerza_con compute]. *)
Definition calcular_fuerza_con (c : M unit) (angulo_rad velocidad : R)
    : M R :=
  let angulo_norm := normalizar_angulo angulo_rad in
  set_input "ángulo" angulo_norm ;;;
  set_input "velocidad_angular" velocidad ;;;
  try_except
    (c ;;; get_output "fuerza")
    (ret 0).



(** ** 9d. The normalisation in binary64 *)

(** [normalizar_angulo] on IEEE binary64 numbers, as the program computes
    it: the sum, the remainder and the difference each round to nearest
    even. *)
Module B64.

Import PrimFloat SpecFloat FloatOps.
#[local] Open Scope float_scope.

(** [np.pi], the binary64 number nearest to π. *)
Definition np_pi : float := 0x1.921fb54442d18p+1.

(** C's [fmod]: the exact remainder of the truncated division, with the
    sign of [x]. *)
Definition fmod (x y : float) : float :=
  match Prim2SF x, Prim2SF y with
  | S754_finite sx mx ex, S754_finite _ my ey =>
      let e := Z.min ex ey in
      let X := (Zpos mx * 2 ^ (ex - e))%Z in
      let Y := (Zpos my * 2 ^ (ey - e))%Z in
      let r := (X mod Y)%Z in
      SF2Prim (binary_normalize prec emax (if sx then (- r)%Z else r) e sx)
  | S754_zero _, S754_finite _ _ _ => x
  | S754_zero _, S754_infinity _ => x
  | S754_finite _ _ _, S754_infinity _ => x
  | _, _ => nan
  end.

(** Python's [vx % wx] on floats ([float_rem], and [npy_divmod] of numpy):
    the remainder of [fmod], moved by [wx] when its sign is not that of
    [wx]; that sum rounds.  (For [wx = 0] Python raises and numpy returns
    NaN; the program only divides by [2*np.pi].) *)
Definition mod_ (vx wx : float) : float :=
  let m := fmod vx wx in
  if is_nan m then nan
  else if is_zero m then (if get_sign wx then neg_zero else zero)
  else if Bool.eqb (wx <? 0) (m <? 0) then m
  else m + wx.

Definition normalizar_angulo (angulo_rad : float) : float :=
  mod_ (angulo_rad + np_pi) (2 * np_pi) - np_pi.

(** [-np.pi], and the binary64 numbers next below [-np.pi] and [np.pi]
    (-3.1415926535897936 and 3.1415926535897927). *)
Definition menos_pi : float := - np_pi.
Definition bajo_menos_pi : float := next_down (- np_pi).
Definition bajo_pi : float := next_down np_pi.

(** The float below [-np.pi], one turn further: [bajo_menos_pi + 2*np.pi]. *)
Definition bajo_menos_pi_mas_vuelta : float := bajo_menos_pi + 2 * np_pi.

(** Whether a binary64 number is negative. *)
Definition negativo (x : float) : bool := x <? 0.

End B64.

(** ** 10. Tactics *)

(** Decides the comparisons of a membership function at a given point. *)
Ltac casos_mf :=
  unfold trapmf, trimf;
  repeat match goal with
         | |- context [Req_dec_T ?x ?y] => destruct (Req_dec_T x y)
         | |- context [Rlt_dec ?x ?y] => destruct (Rlt_dec x y)
         end;
  try lra.

Ltac sin_minmax t :=
  lazymatch t with
  | context [Rmin _ _] => fail
  | context [Rmax _ _] => fail
  | _ => idtac
  end.

Ltac paso_minmax :=
  match goal with
  | |- context [Rmin ?x ?y] =>
      sin_minmax x; sin_minmax y;
      destruct (Rle_dec x y);
      [ try (exfalso; lra); rewrite (Rmin_left x y) by lra
      | try (exfalso; lra); rewrite (Rmin_right x y) by lra ]
  | |- context [Rmax ?x ?y] =>
      sin_minmax x; sin_minmax y;
      destruct (Rle_dec x y);
      [ try (exfalso; lra); rewrite (Rmax_right x y) by lra
      | try (exfalso; lra); rewrite (Rmax_left x y) by lra ]
  end.

(** Decides the comparisons of nested minima and maxima, innermost first. *)
Ltac casos_minmax := repeat paso_minmax; try lra.

(** * Properties *)

(** ** A. The remainder and the normalisation *)

Lemma pasos_1500 : pasos = 1500%nat.
Proof.
  unfold pasos, int_, tiempo_simulacion, paso_tiempo.
  replace (15 / (1 / 100)) with (IZR 1500) by lra.
  destruct (Rle_dec 0 (IZR 1500)) as [_|H]; [|exfalso; apply H; lra].
  rewrite ZfloorZ. reflexivity.
Qed.

Lemma mod_bound (x y : R) : 0 < y -> 0 <= mod_ x y < y.
Proof.
  intros Hy. unfold mod_.
  pose proof (Zfloor_bound (x / y)) as [Hlo Hhi].
  assert (Hx : x = x / y * y) by (field; lra).
  split.
  - apply Rmult_le_compat_r with (r := y) in Hlo; lra.
  - apply Rmult_lt_compat_r with (r := y) in Hhi; lra.
Qed.

Lemma mod_small (x y : R) : 0 <= x < y -> mod_ x y = x.
Proof.
  intros [Hlo Hhi]. unfold mod_.
  assert (Hy : 0 < y) by lra.
  rewrite (Zfloor_eq 0 (x / y)); [lra|].
  split.
  - apply Rmult_le_reg_r with y; [lra|].
    replace (x / y * y) with x by (field; lra). lra.
  - apply Rmult_lt_reg_r with y; [lra|].
    replace (x / y * y) with x by (field; lra). lra.
Qed.

Lemma mod_add_multiple (x y : R) (k : Z) :
  y <> 0 -> mod_ (x + IZR k * y) y = mod_ x y.
Proof.
  intros Hy. unfold mod_.
  replace ((x + IZR k * y) / y) with (x / y + IZR k) by (field; lra).
  rewrite Zfloor_addz, plus_IZR. lra.
Qed.

Lemma normalizar_angulo_rango (t : R) :
  - PI <= normalizar_angulo t < PI.
Proof.
  unfold normalizar_angulo.
  pose proof PI_RGT_0.
  pose proof (mod_bound (t + PI) (2 * PI)). lra.
Qed.

Lemma normalizar_angulo_fijo (t : R) :
  - PI <= t < PI -> normalizar_angulo t = t.
Proof.
  intros H. unfold normalizar_angulo.
  rewrite mod_small; lra.
Qed.

Lemma normalizar_angulo_periodo (t : R) (k : Z) :
  normalizar_angulo (t + 2 * PI * IZR k) = normalizar_angulo t.
Proof.
  unfold normalizar_angulo.
  pose proof PI_RGT_0.
  replace (t + 2 * PI * IZR k + PI) with (t + PI + IZR k * (2 * PI)) by lra.
  rewrite mod_add_multiple; lra.
Qed.

Lemma normalizar_angulo_0 : normalizar_angulo 0 = 0.
Proof.
  apply normalizar_angulo_fijo. pose proof PI_RGT_0. lra.
Qed.

Lemma normalizar_angulo_PI : normalizar_angulo PI = - PI.
Proof.
  pose proof PI_RGT_0.
  replace PI with (- PI + 2 * PI * IZR 1) at 1 by lra.
  rewrite normalizar_angulo_periodo.
  apply normalizar_angulo_fijo. lra.
Qed.

Lemma normalizar_angulo_menos_PI : normalizar_angulo (- PI) = - PI.
Proof.
  pose proof PI_RGT_0. apply normalizar_angulo_fijo. lra.
Qed.

Lemma normalizar_angulo_PI2 : normalizar_angulo (PI / 2) = PI / 2.
Proof.
  pose proof PI_RGT_0. apply normalizar_angulo_fijo. lra.
Qed.

Lemma normalizar_angulo_PI2_no_borde : normalizar_angulo (PI / 2) <> - PI.
Proof.
  pose proof PI_RGT_0. rewrite normalizar_angulo_PI2. lra.
Qed.

Lemma normalizar_angulo_multiplo (a : R) :
  exists k : Z, a = normalizar_angulo a + 2 * PI * IZR k.
Proof.
  exists (Zfloor ((a + PI) / (2 * PI))).
  unfold normalizar_angulo, mod_. lra.
Qed.

Lemma normalizar_angulo_opuesto (a : R) :
  normalizar_angulo a <> - PI ->
  normalizar_angulo (- a) = - normalizar_angulo a.
Proof.
  intros Hne.
  destruct (normalizar_angulo_multiplo a) as [k Hk].
  pose proof (normalizar_angulo_rango a) as [Hlo Hhi].
  replace (- a) with (- normalizar_angulo a + 2 * PI * IZR (- k)).
  - rewrite normalizar_angulo_periodo.
    apply normalizar_angulo_fijo. lra.
  - rewrite opp_IZR. lra.
Qed.

Lemma degrees_normalizar_rango (t : R) :
  -180 <= degrees (normalizar_angulo t) <= 180.
Proof.
  pose proof (normalizar_angulo_rango t) as [Hlo Hhi].
  pose proof PI_RGT_0 as Hpi.
  unfold degrees. split.
  - apply Rmult_le_reg_r with PI; [exact Hpi|].
    replace (normalizar_angulo t * 180 / PI * PI)
      with (normalizar_angulo t * 180) by (field; lra).
    lra.
  - apply Rmult_le_reg_r with PI; [exact Hpi|].
    replace (normalizar_angulo t * 180 / PI * PI)
      with (normalizar_angulo t * 180) by (field; lra).
    lra.
Qed.

(** The program at the ends of the interval, in binary64: the float below
    -π is normalised to +π, and +π, -π, the float below π and the float
    below -π one turn further are all normalised to -π. *)
Lemma B64_normalizar_angulo_extremos :
  B64.normalizar_angulo B64.bajo_menos_pi = B64.np_pi
  /\ B64.normalizar_angulo B64.np_pi = B64.menos_pi
  /\ B64.normalizar_angulo B64.menos_pi = B64.menos_pi
  /\ B64.normalizar_angulo B64.bajo_pi = B64.menos_pi
  /\ B64.normalizar_angulo B64.bajo_menos_pi_mas_vuelta = B64.menos_pi.
Proof.
  vm_compute. repeat split; reflexivity.
Qed.

Lemma B64_menos_pi_distinto : B64.menos_pi <> B64.np_pi.
Proof.
  intros H. apply (f_equal B64.negativo) in H.
  vm_compute in H. discriminate H.
Qed.

(** C1 (the claim fails at the ends of the interval): the angle π is
    normalised to -π, which is not in (-π, π]; and in binary64 the program
    returns +π for the float below -π and -π for that result, so that it is
    not idempotent there. *)
Lemma normalizar_angulo_extremos :
  ~ (- PI < normalizar_angulo PI <= PI)
  /\ B64.normalizar_angulo B64.bajo_menos_pi = B64.np_pi
  /\ B64.normalizar_angulo (B64.normalizar_angulo B64.bajo_menos_pi)
     = B64.menos_pi
  /\ B64.menos_pi <> B64.np_pi.
Proof.
  split; [rewrite normalizar_angulo_PI; lra|].
  destruct B64_normalizar_angulo_extremos as (H1 & H2 & _).
  split; [exact H1|].
  split; [rewrite H1; exact H2|exact B64_menos_pi_distinto].
Qed.

(** C1 (amended): the result of the normalisation lies in the closed
    interval [-π, π], and the normalisation is idempotent wherever its
    result is not +π.  (The exact remainder of this file never gives +π;
    the binary64 remainder does, and sends it to -π.) *)
Theorem normalizar_angulo_idempotente (t : R) :
  - PI <= normalizar_angulo t <= PI
  /\ (normalizar_angulo t <> PI ->
      normalizar_angulo (normalizar_angulo t) = normalizar_angulo t).
Proof.
  pose proof (normalizar_angulo_rango t) as [Hlo Hhi].
  split; [lra|].
  intros _. apply normalizar_angulo_fijo. lra.
Qed.

(** C1 (amended), at the angle 0. *)
Lemma normalizar_angulo_idempotente_en_0 :
  normalizar_angulo 0 <> PI
  /\ - PI <= normalizar_angulo 0 <= PI
  /\ normalizar_angulo (normalizar_angulo 0) = normalizar_angulo 0.
Proof.
  assert (H : normalizar_angulo 0 <> PI).
  { pose proof PI_RGT_0. rewrite normalizar_angulo_0. lra. }
  split; [exact H|].
  split.
  - exact (proj1 (normalizar_angulo_idempotente 0)).
  - exact (proj2 (normalizar_angulo_idempotente 0) H).
Defined.

(** ** B. The dynamics *)

(** The denominator of the dynamics is positive: the division is never a
    division by zero. *)
Lemma denominador_positivo (t : R) :
  0 < longitud * (4 / 3 - (masa_pendulo * cos t ^ 2)
                          / (masa_carro + masa_pendulo)).
Proof.
  unfold longitud, masa_pendulo, masa_carro.
  assert (H : cos t ^ 2 <= 1).
  { pose proof (sin2_cos2 t) as H. unfold Rsqr in H.
    pose proof (pow2_ge_0 (sin t)). simpl in *. lra. }
  lra.
Qed.

(** C7: the angular acceleration is the quotient num/den of the cart-pole
    equations, with every trigonometric function evaluated at the normalised
    angle, and it is 0 at angle 0, velocity 0 and force 0. *)
Theorem calcular_aceleracion_angular_formula :
  (forall angle velocity force : R,
     let t := normalizar_angulo angle in
     let num :=
       981 / 100 * sin t
       + cos t * ((- force - 2 / 10 * (5 / 10) * velocity ^ 2 * sin t)
                  / (1 + 2 / 10)) in
     let den := 5 / 10 * (4 / 3 - 2 / 10 * cos t ^ 2 / (1 + 2 / 10)) in
     calcular_aceleracion_angular angle velocity force = num / den)
  /\ calcular_aceleracion_angular 0 0 0 = 0.
Proof.
  split.
  - intros angle velocity force. reflexivity.
  - unfold calcular_aceleracion_angular.
    rewrite normalizar_angulo_0, sin_0, cos_0.
    unfold gravedad, masa_pendulo, longitud, masa_carro. field.
Qed.

(** ** C. Sums and maxima of lists *)

Lemma suma_cons (x : R) (l : list R) : suma (x :: l) = x + suma l.
Proof. reflexivity. Qed.

Lemma suma_app (l1 l2 : list R) : suma (l1 ++ l2) = suma l1 + suma l2.
Proof.
  induction l1 as [|x l1 IH]; cbn [app].
  - unfold suma at 2. cbn [fold_right]. lra.
  - rewrite !suma_cons, IH. lra.
Qed.

Section Sumas.

Context {A : Type}.

Lemma suma_map_ext (f g : A -> R) (l : list A) :
  (forall x, In x l -> f x = g x) -> suma (map f l) = suma (map g l).
Proof.
  induction l as [|x l IH]; intros H; [reflexivity|].
  cbn [map]. rewrite !suma_cons, (H x), IH; [reflexivity| |left; reflexivity].
  intros y Hy. apply H. right. exact Hy.
Qed.

Lemma suma_map_cero (f : A -> R) (l : list A) :
  (forall x, In x l -> f x = 0) -> suma (map f l) = 0.
Proof.
  induction l as [|x l IH]; intros H; [reflexivity|].
  cbn [map]. rewrite suma_cons, (H x), IH; [lra| |left; reflexivity].
  intros y Hy. apply H. right. exact Hy.
Qed.

Lemma suma_map_le (f g : A -> R) (l : list A) :
  (forall x, In x l -> f x <= g x) -> suma (map f l) <= suma (map g l).
Proof.
  induction l as [|x l IH]; intros H; [cbn; lra|].
  cbn [map]. rewrite !suma_cons.
  assert (f x <= g x) by (apply H; left; reflexivity).
  assert (suma (map f l) <= suma (map g l))
    by (apply IH; intros y Hy; apply H; right; exact Hy).
  lra.
Qed.

Lemma suma_map_plus (f g : A -> R) (l : list A) :
  suma (map (fun x => f x + g x) l) = suma (map f l) + suma (map g l).
Proof.
  induction l as [|x l IH]; [cbn; lra|].
  cbn [map]. rewrite !suma_cons, IH. lra.
Qed.

Lemma suma_map_escala (c : R) (f : A -> R) (l : list A) :
  suma (map (fun x => c * f x) l) = c * suma (map f l).
Proof.
  induction l as [|x l IH]; [cbn; lra|].
  cbn [map]. rewrite !suma_cons, IH. lra.
Qed.

Lemma suma_map_const (c : R) (l : list A) :
  suma (map (fun _ => c) l) = INR (length l) * c.
Proof.
  induction l as [|x l IH]; [cbn; lra|].
  cbn [map]. rewrite suma_cons, IH.
  change (length (x :: l)) with (S (length l)). rewrite S_INR. lra.
Qed.

Lemma suma_map_nonneg (f : A -> R) (l : list A) :
  (forall x, In x l -> 0 <= f x) -> 0 <= suma (map f l).
Proof.
  induction l as [|x l IH]; intros H; [cbn; lra|].
  cbn [map]. rewrite suma_cons.
  assert (0 <= f x) by (apply H; left; reflexivity).
  assert (0 <= suma (map f l))
    by (apply IH; intros y Hy; apply H; right; exact Hy).
  lra.
Qed.

Lemma suma_map_ge_elem (f : A -> R) (l : list A) (x0 : A) :
  (forall x, In x l -> 0 <= f x) -> In x0 l -> f x0 <= suma (map f l).
Proof.
  induction l as [|x l IH]; intros H Hin; [destruct Hin|].
  cbn [map]. rewrite suma_cons.
  assert (0 <= f x) by (apply H; left; reflexivity).
  assert (Hl : forall y, In y l -> 0 <= f y)
    by (intros y Hy; apply H; right; exact Hy).
  destruct Hin as [->|Hin].
  - pose proof (suma_map_nonneg f l Hl). lra.
  - pose proof (IH Hl Hin). lra.
Qed.

End Sumas.

Lemma maximo_ge (l : list R) (x : R) : In x l -> x <= maximo l.
Proof.
  induction l as [|y l IH]; intros Hin; [destruct Hin|].
  change (maximo (y :: l)) with (Rmax y (maximo l)).
  destruct Hin as [->|Hin].
  - apply Rmax_l.
  - apply Rle_trans with (maximo l); [apply IH, Hin|apply Rmax_r].
Qed.

Lemma maximo_rango (l : list R) :
  (forall x, In x l -> 0 <= x <= 1) -> 0 <= maximo l <= 1.
Proof.
  induction l as [|x l IH]; intros H; [cbn; lra|].
  change (maximo (x :: l)) with (Rmax x (maximo l)).
  assert (0 <= x <= 1) by (apply H; left; reflexivity).
  assert (0 <= maximo l <= 1)
    by (apply IH; intros y Hy; apply H; right; exact Hy).
  unfold Rmax. destruct (Rle_dec _ _); lra.
Qed.

(** ** D. The samples of the force universe *)

Lemma universo_fuerza_puntos : universo_fuerza = map punto (seq 0 200).
Proof.
  unfold universo_fuerza, arange.
  replace ((50 - -50) / (1 / 2)) with (- - IZR 200) by lra.
  unfold Zceil. rewrite Ropp_involutive, ZfloorNZ.
  reflexivity.
Qed.

Lemma punto_S (i : nat) : punto (S i) = punto i + 1 / 2.
Proof.
  unfold punto. rewrite Nat2Z.inj_succ, succ_IZR. lra.
Qed.

Lemma punto_IZR (i : nat) (z : Z) :
  Z.of_nat i = z -> punto i = -50 + IZR z * (1 / 2).
Proof. intros <-. reflexivity. Qed.

Lemma punto_le (i n : nat) : (i <= n)%nat -> punto i <= punto n.
Proof.
  intros H. unfold punto.
  assert (IZR (Z.of_nat i) <= IZR (Z.of_nat n)) by (apply IZR_le; lia).
  lra.
Qed.

Lemma punto_en_universo (i : nat) :
  (i < 200)%nat -> In (punto i) universo_fuerza.
Proof.
  intros H. rewrite universo_fuerza_puntos.
  apply in_map, in_seq. lia.
Qed.

Lemma universo_fuerza_rango (u : R) :
  In u universo_fuerza -> -50 <= u <= 50.
Proof.
  rewrite universo_fuerza_puntos. intros Hu.
  apply in_map_iff in Hu as (i & <- & Hi). apply in_seq in Hi.
  pose proof (punto_le 0 i ltac:(lia)) as H0.
  pose proof (punto_le i 199 ltac:(lia)) as H1.
  rewrite (punto_IZR 0 0) in H0 by reflexivity.
  rewrite (punto_IZR 199 199) in H1 by reflexivity.
  lra.
Qed.

Lemma suma_universo (h : R -> R) :
  suma (map h universo_fuerza) = suma (map (fun i => h (punto i)) (seq 0 200)).
Proof.
  rewrite universo_fuerza_puntos, map_map. reflexivity.
Qed.

(** Reflection of a window of samples about its centre. *)
Lemma suma_ventana_reflejo (h : R -> R) (n : nat) :
  forall lo : nat,
    suma (map (fun i => h (punto i)) (seq lo n))
    = suma (map (fun i => h (punto lo + punto (lo + n) - 1 / 2 - punto i))
                (seq lo n)).
Proof.
  induction n as [|n IH]; intros lo; [reflexivity|].
  rewrite seq_S at 2. rewrite map_app, suma_app.
  cbn [seq map]. rewrite !suma_cons, IH.
  change (suma []) with 0.
  rewrite <- seq_shift, map_map.
  replace (punto lo + punto (lo + S n) - 1 / 2 - punto (lo + n))
    with (punto lo).
  2:{ rewrite Nat.add_succ_r, punto_S. lra. }
  rewrite (suma_map_ext
             (fun i => h (punto (S lo) + punto (S lo + n) - 1 / 2 - punto (S i)))
             (fun i => h (punto lo + punto (lo + S n) - 1 / 2 - punto i))).
  - lra.
  - intros i _. f_equal.
    rewrite Nat.add_succ_r, !punto_S. cbn [Nat.add]. rewrite punto_S. lra.
Qed.

(** A sum over the universe reduces to a window outside which the
    function vanishes. *)
Lemma suma_universo_ventana (h : R -> R) (lo n : nat) :
  (lo + n <= 200)%nat ->
  (forall i, (i < lo)%nat -> h (punto i) = 0) ->
  (forall i, (lo + n <= i < 200)%nat -> h (punto i) = 0) ->
  suma (map h universo_fuerza) = suma (map (fun i => h (punto i)) (seq lo n)).
Proof.
  intros Hle Hizq Hder. rewrite suma_universo.
  replace 200%nat with (lo + (n + (200 - lo - n)))%nat by lia.
  rewrite !seq_app, !map_app, !suma_app. cbn [Nat.add].
  rewrite (suma_map_cero _ (seq 0 lo)),
          (suma_map_cero _ (seq (lo + n) _)); [lra| |].
  - intros i Hi. apply in_seq in Hi. apply Hder. lia.
  - intros i Hi. apply in_seq in Hi. apply Hizq. lia.
Qed.

Lemma suma_universo_reflejo (h : R -> R) :
  suma (map (fun u => h (- u)) universo_fuerza)
  = suma (map h universo_fuerza) - h (-50) + h 50.
Proof.
  rewrite !suma_universo.
  change (seq 0 200) with (0%nat :: seq 1 199).
  cbn [map]. rewrite !suma_cons.
  rewrite (suma_ventana_reflejo (fun u => h (- u)) 199 1).
  rewrite (suma_map_ext
             (fun i => h (- (punto 1 + punto (1 + 199) - 1 / 2 - punto i)))
             (fun i => h (punto i))).
  - rewrite (punto_IZR 0 0) by reflexivity.
    replace (- (-50 + 0 * (1 / 2))) with 50 by lra.
    replace (-50 + 0 * (1 / 2)) with (-50) by lra.
    lra.
  - intros i _. f_equal.
    rewrite (punto_IZR 1 1), (punto_IZR (1 + 199) 200) by reflexivity. lra.
Qed.

(** A lower bound of a sum over the universe from a window of samples. *)
Lemma suma_universo_ge (g : R -> R) (lo n : nat) (c : R) :
  (lo + n <= 200)%nat ->
  (forall u, 0 <= g u) ->
  (forall i, (lo <= i < lo + n)%nat -> c <= g (punto i)) ->
  INR n * c <= suma (map g universo_fuerza).
Proof.
  intros Hle Hpos Hc. rewrite suma_universo.
  replace 200%nat with (lo + (n + (200 - lo - n)))%nat by lia.
  rewrite !seq_app, !map_app, !suma_app. cbn [Nat.add].
  pose proof (suma_map_nonneg (fun i => g (punto i)) (seq 0 lo)
                (fun i _ => Hpos (punto i))).
  pose proof (suma_map_nonneg (fun i => g (punto i))
                (seq (lo + n) (200 - lo - n))
                (fun i _ => Hpos (punto i))).
  assert (INR n * c <= suma (map (fun i => g (punto i)) (seq lo n))).
  { rewrite <- (length_seq n lo) at 1.
    rewrite <- (suma_map_const c (seq lo n)).
    apply suma_map_le. intros i Hi. apply in_seq in Hi. apply Hc. lia. }
  lra.
Qed.

(** ** E. Membership degrees *)

Lemma cociente_rango (x y : R) : 0 <= x <= y -> 0 < y -> 0 <= x / y <= 1.
Proof.
  intros [H0 H1] Hy. split.
  - apply Rmult_le_reg_r with y; [exact Hy|].
    replace (x / y * y) with x by (field; lra). lra.
  - apply Rmult_le_reg_r with y; [exact Hy|].
    replace (x / y * y) with x by (field; lra). lra.
Qed.

Lemma cociente_cotas (n d c : R) :
  0 < d -> - c * d <= n <= c * d -> - c <= n / d <= c.
Proof.
  intros Hd [H1 H2]. split.
  - apply Rmult_le_reg_r with d; [exact Hd|].
    replace (n / d * d) with n by (field; lra). lra.
  - apply Rmult_le_reg_r with d; [exact Hd|].
    replace (n / d * d) with n by (field; lra). lra.
Qed.

Lemma trimf_rango (x a b c : R) : 0 <= trimf x a b c <= 1.
Proof.
  unfold trimf.
  destruct (Req_dec_T x b); [lra|].
  destruct (Rlt_dec a x); [|lra].
  destruct (Rlt_dec x b); [apply cociente_rango; lra|].
  destruct (Rlt_dec x c); [apply cociente_rango; lra|lra].
Qed.

Lemma trapmf_rango (x a b c d : R) : 0 <= trapmf x a b c d <= 1.
Proof.
  unfold trapmf.
  destruct (Rlt_dec x a); [lra|].
  destruct (Rlt_dec d x); [lra|].
  destruct (Rlt_dec x b); [apply trimf_rango|].
  destruct (Rlt_dec c x); [apply trimf_rango|lra].
Qed.

Lemma trimf_espejo (x a b c : R) :
  a <= b <= c -> trimf (- x) (- c) (- b) (- a) = trimf x a b c.
Proof.
  intros H. casos_mf; field; lra.
Qed.

Lemma trapmf_espejo (x a b c d : R) :
  a <= b -> b <= c -> c <= d ->
  trapmf (- x) (- d) (- c) (- b) (- a) = trapmf x a b c d.
Proof.
  intros Hab Hbc Hcd. casos_mf; field; lra.
Qed.

Lemma angulo_rango (l : Etiqueta) (x : R) : 0 <= angulo l x <= 1.
Proof. destruct l; first [apply trimf_rango | apply trapmf_rango]. Qed.

Lemma velocidad_angular_rango (l : Etiqueta) (x : R) :
  0 <= velocidad_angular l x <= 1.
Proof. destruct l; first [apply trimf_rango | apply trapmf_rango]. Qed.

Lemma fuerza_rango (l : Etiqueta) (x : R) : 0 <= fuerza l x <= 1.
Proof. destruct l; first [apply trimf_rango | apply trapmf_rango]. Qed.

Lemma angulo_espejo (l : Etiqueta) (x : R) :
  angulo l (- x) = angulo (espejo l) x.
Proof.
  pose proof PI_RGT_0.
  destruct l; unfold angulo, espejo, radians.
  - rewrite <- (trapmf_espejo x) by lra. f_equal; lra.
  - rewrite <- (trimf_espejo x) by lra. f_equal; lra.
  - rewrite <- (trimf_espejo x) by lra. f_equal; lra.
  - rewrite <- (trimf_espejo x) by lra. f_equal; lra.
  - rewrite <- (trapmf_espejo x) by lra. f_equal; lra.
Qed.

Lemma velocidad_angular_espejo (l : Etiqueta) (x : R) :
  velocidad_angular l (- x) = velocidad_angular (espejo l) x.
Proof.
  destruct l; unfold velocidad_angular, espejo.
  - rewrite <- (trapmf_espejo x) by lra. f_equal; lra.
  - rewrite <- (trimf_espejo x) by lra. f_equal; lra.
  - rewrite <- (trimf_espejo x) by lra. f_equal; lra.
  - rewrite <- (trimf_espejo x) by lra. f_equal; lra.
  - rewrite <- (trapmf_espejo x) by lra. f_equal; lra.
Qed.

Lemma fuerza_espejo (l : Etiqueta) (x : R) :
  fuerza l (- x) = fuerza (espejo l) x.
Proof.
  destruct l; unfold fuerza, espejo.
  - rewrite <- (trapmf_espejo x) by lra. f_equal; lra.
  - rewrite <- (trimf_espejo x) by lra. f_equal; lra.
  - rewrite <- (trimf_espejo x) by lra. f_equal; lra.
  - rewrite <- (trimf_espejo x) by lra. f_equal; lra.
  - rewrite <- (trapmf_espejo x) by lra. f_equal; lra.
Qed.

Lemma disparo_rango (r : Regla) (a v : R) : 0 <= disparo r a v <= 1.
Proof.
  unfold disparo.
  pose proof (angulo_rango (antecedente_angulo r) a).
  pose proof (velocidad_angular_rango (antecedente_velocidad r) v).
  unfold Rmin. destruct (Rle_dec _ _); lra.
Qed.

Lemma disparo_espejo (la lv lf : Etiqueta) (a v : R) :
  disparo (Rule la lv lf) (- a) (- v)
  = Rmin (angulo (espejo la) a) (velocidad_angular (espejo lv) v).
Proof.
  unfold disparo. cbn [antecedente_angulo antecedente_velocidad].
  rewrite angulo_espejo, velocidad_angular_espejo. reflexivity.
Qed.

Lemma activacion_rango (l : Etiqueta) (a v : R) : 0 <= activacion l a v <= 1.
Proof.
  unfold activacion. apply maximo_rango.
  intros x Hx. apply in_map_iff in Hx as (r & <- & _).
  apply disparo_rango.
Qed.

(** The firing strengths that an output label collects, rule by rule. *)
Lemma activacion_reglas (l : Etiqueta) (a v : R) :
  activacion l a v
  = match l with
    | NG => Rmax (disparo (Rule PP PG NG) a v)
              (Rmax (disparo (Rule PG PP NG) a v)
                 (Rmax (disparo (Rule PG PG NG) a v) 0))
    | NP => Rmax (disparo (Rule PP ZE NP) a v)
              (Rmax (disparo (Rule PP PP NP) a v)
                 (Rmax (disparo (Rule PG ZE NP) a v) 0))
    | ZE => Rmax (disparo (Rule ZE ZE ZE) a v) 0
    | PP => Rmax (disparo (Rule NG ZE PP) a v)
              (Rmax (disparo (Rule NP NP PP) a v)
                 (Rmax (disparo (Rule NP ZE PP) a v)
                    (Rmax (disparo (Rule ZE NG PP) a v)
                       (Rmax (disparo (Rule ZE NP PP) a v) 0))))
    | PG => Rmax (disparo (Rule NG NG PG) a v)
              (Rmax (disparo (Rule NG NP PG) a v)
                 (Rmax (disparo (Rule NP NG PG) a v) 0))
    end.
Proof. destruct l; reflexivity. Qed.

Lemma agregada_rango (a v u : R) : 0 <= agregada a v u <= 1.
Proof.
  unfold agregada. apply maximo_rango.
  intros x Hx. apply in_map_iff in Hx as (l & <- & _).
  pose proof (activacion_rango l a v). pose proof (fuerza_rango l u).
  unfold Rmin. destruct (Rle_dec _ _); lra.
Qed.

Lemma agregada_etiquetas (a v u : R) :
  agregada a v u
  = Rmax (Rmin (activacion NG a v) (fuerza NG u))
      (Rmax (Rmin (activacion NP a v) (fuerza NP u))
         (Rmax (Rmin (activacion ZE a v) (fuerza ZE u))
            (Rmax (Rmin (activacion PP a v) (fuerza PP u))
               (Rmax (Rmin (activacion PG a v) (fuerza PG u)) 0)))).
Proof. reflexivity. Qed.

Lemma agregada_ge (l : Etiqueta) (a v u : R) :
  Rmin (activacion l a v) (fuerza l u) <= agregada a v u.
Proof.
  unfold agregada. apply maximo_ge.
  apply (in_map (fun l => Rmin (activacion l a v) (fuerza l u))).
  destruct l; cbn; tauto.
Qed.

(** When a single output label is active, the aggregated membership is
    that label's membership function clipped at its strength. *)
Lemma agregada_una (a v : R) (l0 : Etiqueta) :
  (forall l, l <> l0 -> activacion l a v = 0) ->
  forall u, agregada a v u = Rmin (activacion l0 a v) (fuerza l0 u).
Proof.
  intros H u. rewrite agregada_etiquetas.
  pose proof (activacion_rango l0 a v).
  pose proof (fuerza_rango NG u). pose proof (fuerza_rango NP u).
  pose proof (fuerza_rango ZE u). pose proof (fuerza_rango PP u).
  pose proof (fuerza_rango PG u).
  destruct l0;
    repeat match goal with
           | |- context [activacion ?l a v] =>
               rewrite (H l) by discriminate
           end;
    casos_minmax.
Qed.

Lemma agregada_ninguna (a v : R) :
  (forall l, activacion l a v = 0) -> forall u, agregada a v u = 0.
Proof.
  intros H u. rewrite agregada_etiquetas, !H.
  pose proof (fuerza_rango NG u). pose proof (fuerza_rango NP u).
  pose proof (fuerza_rango ZE u). pose proof (fuerza_rango PP u).
  pose proof (fuerza_rango PG u).
  casos_minmax.
Qed.

Lemma agregada_en_menos_50 (a v : R) :
  agregada a v (-50) = activacion NG a v.
Proof.
  rewrite agregada_etiquetas.
  pose proof (activacion_rango NG a v). pose proof (activacion_rango NP a v).
  pose proof (activacion_rango ZE a v). pose proof (activacion_rango PP a v).
  pose proof (activacion_rango PG a v).
  replace (fuerza NG (-50)) with 1 by (unfold fuerza; casos_mf).
  replace (fuerza NP (-50)) with 0 by (unfold fuerza; casos_mf).
  replace (fuerza ZE (-50)) with 0 by (unfold fuerza; casos_mf).
  replace (fuerza PP (-50)) with 0 by (unfold fuerza; casos_mf).
  replace (fuerza PG (-50)) with 0 by (unfold fuerza; casos_mf).
  casos_minmax.
Qed.

Lemma agregada_en_50 (a v : R) :
  agregada a v 50 = activacion PG a v.
Proof.
  rewrite agregada_etiquetas.
  pose proof (activacion_rango NG a v). pose proof (activacion_rango NP a v).
  pose proof (activacion_rango ZE a v). pose proof (activacion_rango PP a v).
  pose proof (activacion_rango PG a v).
  replace (fuerza NG 50) with 0 by (unfold fuerza; casos_mf).
  replace (fuerza NP 50) with 0 by (unfold fuerza; casos_mf).
  replace (fuerza ZE 50) with 0 by (unfold fuerza; casos_mf).
  replace (fuerza PP 50) with 0 by (unfold fuerza; casos_mf).
  replace (fuerza PG 50) with 1 by (unfold fuerza; casos_mf).
  casos_minmax.
Qed.

Lemma agregada_meseta_NG (a v u : R) :
  -50 <= u <= -20 -> activacion NG a v <= agregada a v u.
Proof.
  intros Hu. pose proof (agregada_ge NG a v u) as H.
  replace (fuerza NG u) with 1 in H by (unfold fuerza; casos_mf).
  pose proof (activacion_rango NG a v).
  revert H. casos_minmax.
Qed.

Lemma agregada_meseta_PG (a v u : R) :
  20 <= u <= 50 -> activacion PG a v <= agregada a v u.
Proof.
  intros Hu. pose proof (agregada_ge PG a v u) as H.
  replace (fuerza PG u) with 1 in H by (unfold fuerza; casos_mf).
  pose proof (activacion_rango PG a v).
  revert H. casos_minmax.
Qed.

(** ** F. The centroid *)

Lemma centroide_ext (mu1 mu2 : R -> R) (l : list R) :
  (forall u, mu1 u = mu2 u) -> centroide mu1 l = centroide mu2 l.
Proof.
  intros H. unfold centroide.
  rewrite (suma_map_ext mu1 mu2) by (intros; apply H).
  rewrite (suma_map_ext (fun u => u * mu1 u) (fun u => u * mu2 u))
    by (intros; rewrite H; reflexivity).
  reflexivity.
Qed.

Lemma suma_agregada_nonneg (a v : R) :
  0 <= suma (map (agregada a v) universo_fuerza).
Proof.
  apply suma_map_nonneg. intros u _. apply agregada_rango.
Qed.

Lemma suma_agregada_ge (a v : R) (i : nat) :
  (i < 200)%nat ->
  agregada a v (punto i) <= suma (map (agregada a v) universo_fuerza).
Proof.
  intros H. apply suma_map_ge_elem.
  - intros u _. apply agregada_rango.
  - apply punto_en_universo, H.
Qed.

(** The numerator of the centroid is within the denominator times the
    bounds of the universe. *)
Lemma numerador_cotas (mu : R -> R) :
  (forall u, 0 <= mu u) ->
  -50 * suma (map mu universo_fuerza)
  <= suma (map (fun u => u * mu u) universo_fuerza)
  <= 50 * suma (map mu universo_fuerza).
Proof.
  intros Hmu. rewrite <- !suma_map_escala. split.
  - apply suma_map_le. intros u Hu.
    pose proof (universo_fuerza_rango u Hu). pose proof (Hmu u). nra.
  - apply suma_map_le. intros u Hu.
    pose proof (universo_fuerza_rango u Hu). pose proof (Hmu u). nra.
Qed.

(** The centroid of a membership function that is symmetric about [c]. *)
Lemma centroide_simetrico (mu : R -> R) (c : R) (lo n : nat) :
  (lo + n <= 200)%nat ->
  punto lo + punto (lo + n) - 1 / 2 = 2 * c ->
  (forall i, (i < lo)%nat -> mu (punto i) = 0) ->
  (forall i, (lo + n <= i < 200)%nat -> mu (punto i) = 0) ->
  (forall u, mu (2 * c - u) = mu u) ->
  0 < suma (map mu universo_fuerza) ->
  centroide mu universo_fuerza = Some c.
Proof.
  intros Hle Hc Hizq Hder Hsim Hpos.
  set (h := fun u => (u - c) * mu u).
  assert (Hh : suma (map h universo_fuerza) = 0).
  { rewrite (suma_universo_ventana h lo n Hle).
    - pose proof (suma_ventana_reflejo h n lo) as Hr.
      rewrite (suma_map_ext
                 (fun i => h (punto lo + punto (lo + n) - 1 / 2 - punto i))
                 (fun i => -1 * h (punto i))) in Hr.
      + rewrite suma_map_escala in Hr. lra.
      + intros i _. rewrite Hc. unfold h. rewrite Hsim. lra.
    - intros i Hi. unfold h. rewrite Hizq by exact Hi. lra.
    - intros i Hi. unfold h. rewrite Hder by exact Hi. lra. }
  assert (HN : suma (map (fun u => u * mu u) universo_fuerza)
               = c * suma (map mu universo_fuerza)).
  { rewrite <- suma_map_escala, <- (Rplus_0_l (suma (map (fun u => c * mu u) _))),
      <- Hh, <- suma_map_plus.
    apply suma_map_ext. intros u _. unfold h. lra. }
  unfold centroide.
  destruct (Req_dec_T _ 0) as [H0|Hne]; [lra|].
  f_equal. rewrite HN. field. exact Hne.
Qed.

(** The centroid when PP is the only active output label. *)
Lemma centroide_solo_PP (a v : R) :
  (forall l, l <> PP -> activacion l a v = 0) ->
  0 < activacion PP a v ->
  centroide (agregada a v) universo_fuerza = Some 10.
Proof.
  intros Hotras Hpos.
  pose proof (agregada_una a v PP Hotras) as Hag.
  pose proof (activacion_rango PP a v) as Hr.
  apply (centroide_simetrico _ 10 101 39).
  - lia.
  - rewrite (punto_IZR 101 101), (punto_IZR (101 + 39) 140) by reflexivity.
    lra.
  - intros i Hi. rewrite Hag.
    pose proof (punto_le i 100 ltac:(lia)) as H.
    rewrite (punto_IZR 100 100) in H by reflexivity.
    replace (fuerza PP (punto i)) with 0 by (unfold fuerza; casos_mf).
    casos_minmax.
  - intros i Hi. rewrite Hag.
    pose proof (punto_le 140 i ltac:(lia)) as H.
    rewrite (punto_IZR 140 140) in H by reflexivity.
    replace (fuerza PP (punto i)) with 0 by (unfold fuerza; casos_mf).
    casos_minmax.
  - intros u. rewrite !Hag. f_equal.
    unfold fuerza. casos_mf.
  - pose proof (suma_agregada_ge a v 120 ltac:(lia)) as H.
    rewrite Hag, (punto_IZR 120 120) in H by reflexivity.
    replace (fuerza PP (-50 + 120 * (1 / 2))) with 1 in H
      by (unfold fuerza; casos_mf).
    revert H. casos_minmax.
Qed.

(** Numerator and denominator of the centroid at the mirrored input. *)
Lemma centroide_reflejado (mu : R -> R) :
  let N := suma (map (fun u => u * mu u) universo_fuerza) in
  let D := suma (map mu universo_fuerza) in
  suma (map (fun u => mu (- u)) universo_fuerza) = D - mu (-50) + mu 50
  /\ suma (map (fun u => u * mu (- u)) universo_fuerza)
     = - N - 50 * mu (-50) - 50 * mu 50.
Proof.
  intros N D. split.
  - apply suma_universo_reflejo.
  - rewrite (suma_map_ext (fun u => u * mu (- u))
                          (fun u => (fun w => -1 * (w * mu w)) (- u)))
      by (intros u _; lra).
    rewrite (suma_universo_reflejo (fun w => -1 * (w * mu w))).
    rewrite suma_map_escala. fold N. lra.
Qed.

(** ** G. The controller *)

Lemma calcular_fuerza_inferir (a v : R) (s : Simulacion) :
  exists s', calcular_fuerza a v s = (Valor (inferir a v), s').
Proof.
  unfold calcular_fuerza, inferir, bind, set_input, try_except, compute,
    get_output, ret, raise.
  cbn [input output].
  rewrite lookup_insert_ne by done.
  rewrite !lookup_insert_eq.
  destruct (centroide _ _) as [f|].
  - cbn [output]. rewrite lookup_insert_eq. eauto.
  - eauto.
Qed.

Lemma calcular_fuerza_fst (a v : R) (s : Simulacion) :
  fst (calcular_fuerza a v s) = Valor (inferir a v).
Proof.
  destruct (calcular_fuerza_inferir a v s) as [s' ->]. reflexivity.
Qed.

(** The force that the controller returns is within the bounds of the
    force universe. *)
Lemma inferir_rango (a v : R) : -50 <= inferir a v <= 50.
Proof.
  unfold inferir, centroide.
  destruct (Req_dec_T _ 0) as [H0|Hne]; [lra|].
  pose proof (suma_agregada_nonneg (normalizar_angulo a) v).
  pose proof (numerador_cotas (agregada (normalizar_angulo a) v)
                (fun u => proj1 (agregada_rango _ _ u))).
  replace (-50) with (- 50) by lra.
  apply cociente_cotas; lra.
Qed.

(** A block [try: m except: return a] returns a value whatever [m] does. *)
Lemma try_except_ret {A} (m : M A) (a : A) (s : Simulacion) :
  exists x s', try_except m (ret a) s = (Valor x, s').
Proof.
  unfold try_except, ret.
  destruct (m s) as [[x|] s']; eauto.
Qed.

Lemma calcular_fuerza_con_compute :
  calcular_fuerza = calcular_fuerza_con compute.
Proof. reflexivity. Qed.







(** C3: [calcular_fuerza] returns a value for every pair of arguments and
    every state of the simulator, and the value is 0 when the aggregated
    output membership is identically zero. *)
Theorem calcular_fuerza_no_falla (a v : R) (s : Simulacion) :
  (exists f s', calcular_fuerza a v s = (Valor f, s'))
  /\ ((forall u, agregada (normalizar_angulo a) v u = 0) ->
      exists s', calcular_fuerza a v s = (Valor 0, s')).
Proof.
  split.
  - unfold calcular_fuerza, bind, set_input. apply try_except_ret.
  - intros Hcero.
    destruct (calcular_fuerza_inferir a v s) as [s' H].
    exists s'. rewrite H. do 2 f_equal.
    unfold inferir, centroide.
    rewrite suma_map_cero by (intros; apply Hcero).
    destruct (Req_dec_T 0 0) as [_|Hne]; [reflexivity|contradiction].
Qed.

(** ** H. The controller at particular inputs *)

Lemma angulo_en_0 (l : Etiqueta) :
  angulo l 0 = match l with ZE => 1 | _ => 0 end.
Proof.
  pose proof PI_RGT_0.
  destruct l; unfold angulo, radians; casos_mf.
Qed.

Lemma velocidad_angular_en_0 (l : Etiqueta) :
  velocidad_angular l 0 = match l with ZE => 1 | _ => 0 end.
Proof. destruct l; unfold velocidad_angular; casos_mf. Qed.

Lemma velocidad_angular_en_menos_2 (l : Etiqueta) :
  velocidad_angular l (-2)
  = match l with NG => 1 / 3 | NP => 2 / 3 | _ => 0 end.
Proof. destruct l; unfold velocidad_angular; casos_mf. Qed.

Lemma velocidad_angular_en_2 (l : Etiqueta) :
  velocidad_angular l 2
  = match l with PP => 2 / 3 | PG => 1 / 3 | _ => 0 end.
Proof. destruct l; unfold velocidad_angular; casos_mf. Qed.

Lemma angulo_en_menos_PI (l : Etiqueta) :
  angulo l (- PI) = match l with NG => 1 | _ => 0 end.
Proof.
  pose proof PI_RGT_0.
  destruct l; unfold angulo, radians; casos_mf.
Qed.

(** At angle 0 and velocity 0 only the rule (Z, Z -> Z) fires. *)
Lemma disparo_en_0_0 (r : Regla) :
  In r reglas ->
  disparo r 0 0 = match r with Rule ZE ZE ZE => 1 | _ => 0 end.
Proof.
  intros Hr. unfold disparo.
  rewrite angulo_en_0, velocidad_angular_en_0.
  unfold reglas in Hr. cbn [In] in Hr.
  repeat (destruct Hr as [<-|Hr];
          [cbn [antecedente_angulo antecedente_velocidad]; casos_minmax|]).
  destruct Hr.
Qed.

Lemma activacion_en_0_0 (l : Etiqueta) :
  activacion l 0 0 = match l with ZE => 1 | _ => 0 end.
Proof.
  rewrite activacion_reglas.
  destruct l; unfold disparo;
    cbn [antecedente_angulo antecedente_velocidad];
    rewrite ?angulo_en_0, ?velocidad_angular_en_0; casos_minmax.
Qed.

Lemma activacion_en_0_menos_2 (l : Etiqueta) :
  activacion l 0 (-2) = match l with PP => 2 / 3 | _ => 0 end.
Proof.
  rewrite activacion_reglas.
  destruct l; unfold disparo;
    cbn [antecedente_angulo antecedente_velocidad];
    rewrite ?angulo_en_0, ?velocidad_angular_en_menos_2; casos_minmax.
Qed.

Lemma activacion_en_0_2 (l : Etiqueta) : activacion l 0 2 = 0.
Proof.
  rewrite activacion_reglas.
  destruct l; unfold disparo;
    cbn [antecedente_angulo antecedente_velocidad];
    rewrite ?angulo_en_0, ?velocidad_angular_en_2; casos_minmax.
Qed.

Lemma activacion_en_menos_PI_0 (l : Etiqueta) :
  activacion l (- PI) 0 = match l with PP => 1 | _ => 0 end.
Proof.
  rewrite activacion_reglas.
  destruct l; unfold disparo;
    cbn [antecedente_angulo antecedente_velocidad];
    rewrite ?angulo_en_menos_PI, ?velocidad_angular_en_0; casos_minmax.
Qed.

Lemma agregada_en_0_0 (u : R) : agregada 0 0 u = fuerza ZE u.
Proof.
  rewrite (agregada_una 0 0 ZE).
  - rewrite activacion_en_0_0. pose proof (fuerza_rango ZE u).
    casos_minmax.
  - intros l Hl. rewrite activacion_en_0_0. destruct l; congruence.
Qed.

Lemma agregada_en_0_2 (u : R) : agregada (normalizar_angulo 0) 2 u = 0.
Proof.
  rewrite normalizar_angulo_0.
  apply agregada_ninguna. apply activacion_en_0_2.
Qed.

Lemma centroide_en_0_0 : centroide (agregada 0 0) universo_fuerza = Some 0.
Proof.
  apply (centroide_simetrico _ 0 1 199).
  - lia.
  - rewrite (punto_IZR 1 1), (punto_IZR (1 + 199) 200) by reflexivity. lra.
  - intros i Hi. replace i with 0%nat by lia.
    rewrite agregada_en_0_0, (punto_IZR 0 0) by reflexivity.
    unfold fuerza. casos_mf.
  - intros i Hi. lia.
  - intros u. rewrite !agregada_en_0_0. unfold fuerza. casos_mf.
  - pose proof (suma_agregada_ge 0 0 100 ltac:(lia)) as H.
    rewrite agregada_en_0_0, (punto_IZR 100 100) in H by reflexivity.
    replace (fuerza ZE (-50 + 100 * (1 / 2))) with 1 in H
      by (unfold fuerza; casos_mf).
    lra.
Qed.

Lemma centroide_en_0_menos_2 :
  centroide (agregada 0 (-2)) universo_fuerza = Some 10.
Proof.
  apply centroide_solo_PP.
  - intros l Hl. rewrite activacion_en_0_menos_2. destruct l; congruence.
  - rewrite activacion_en_0_menos_2. lra.
Qed.

Lemma centroide_en_menos_PI_0 :
  centroide (agregada (- PI) 0) universo_fuerza = Some 10.
Proof.
  apply centroide_solo_PP.
  - intros l Hl. rewrite activacion_en_menos_PI_0. destruct l; congruence.
  - rewrite activacion_en_menos_PI_0. lra.
Qed.

Lemma inferir_0_0 : inferir 0 0 = 0.
Proof.
  unfold inferir. rewrite normalizar_angulo_0, centroide_en_0_0. reflexivity.
Qed.

Lemma inferir_0_menos_2 : inferir 0 (-2) = 10.
Proof.
  unfold inferir.
  rewrite normalizar_angulo_0, centroide_en_0_menos_2. reflexivity.
Qed.

Lemma inferir_0_2 : inferir 0 2 = 0.
Proof.
  unfold inferir, centroide.
  rewrite (suma_map_cero (agregada (normalizar_angulo 0) 2)).
  - destruct (Req_dec_T 0 0) as [_|Hne]; [reflexivity|contradiction].
  - intros u _. rewrite normalizar_angulo_0.
    apply agregada_ninguna, activacion_en_0_2.
Qed.

Lemma inferir_PI_0 : inferir PI 0 = 10.
Proof.
  unfold inferir.
  rewrite normalizar_angulo_PI, centroide_en_menos_PI_0. reflexivity.
Qed.

Lemma inferir_menos_PI_0 : inferir (- PI) 0 = 10.
Proof.
  unfold inferir.
  rewrite normalizar_angulo_menos_PI, centroide_en_menos_PI_0. reflexivity.
Qed.

(** C8: [calcular_fuerza(0, 0)] is 0: at angle 0 and velocity 0 the rule
    (Z, Z -> Z) fires with strength 1 and no other rule fires, the
    aggregated membership is the Z set of the force, and its centroid
    is 0. *)
Theorem calcular_fuerza_en_0_0 (s : Simulacion) :
  (exists s', calcular_fuerza 0 0 s = (Valor 0, s'))
  /\ (forall r, In r reglas ->
        disparo r (normalizar_angulo 0) 0
        = match r with Rule ZE ZE ZE => 1 | _ => 0 end)
  /\ (forall u, agregada (normalizar_angulo 0) 0 u = fuerza ZE u)
  /\ centroide (agregada (normalizar_angulo 0) 0) universo_fuerza = Some 0.
Proof.
  rewrite normalizar_angulo_0.
  split; [|split; [|split]].
  - destruct (calcular_fuerza_inferir 0 0 s) as [s' H].
    exists s'. rewrite H, inferir_0_0. reflexivity.
  - apply disparo_en_0_0.
  - apply agregada_en_0_0.
  - apply centroide_en_0_0.
Qed.

(** C3 (an input of the degenerate case): at angle 0 and velocity 2 no rule
    fires, and the controller returns 0. *)
Lemma calcular_fuerza_no_falla_en_0_2 :
  (forall u, agregada (normalizar_angulo 0) 2 u = 0)
  /\ exists s', calcular_fuerza 0 2 simulador = (Valor 0, s').
Proof.
  split.
  - apply agregada_en_0_2.
  - apply (calcular_fuerza_no_falla 0 2 simulador), agregada_en_0_2.
Defined.

(** C5 (the antisymmetry as claimed fails): at angle π and velocity 0 the
    controller returns 10 and at the mirrored input, angle -π and velocity
    -0, it returns 10 again (not -10), because both angles are normalised
    to -π, in binary64 as well: the two sides of the claimed equation are
    20 apart.  At angle 0 and velocity -2 against angle -0 and velocity 2,
    where the rules (Z, NG -> PP) and (Z, NP -> PP) fire on one side and
    have no counterpart on the other, the two sides are more than 5/3
    apart. *)
Lemma calcular_fuerza_no_antisimetrica :
  (fst (calcular_fuerza PI 0 simulador) = Valor 10
   /\ fst (calcular_fuerza (- PI) (- 0) simulador) = Valor 10
   /\ Rabs (10 - - 10) = 20)
  /\ (B64.normalizar_angulo B64.np_pi = B64.menos_pi
      /\ B64.normalizar_angulo B64.menos_pi = B64.menos_pi)
  /\ (exists f1 f2 : R,
        fst (calcular_fuerza 0 (-2) simulador) = Valor f1
        /\ fst (calcular_fuerza (- 0) (- -2) simulador) = Valor f2
        /\ 5 / 3 < Rabs (f1 - - f2)).
Proof.
  replace (- -2) with 2 by lra. rewrite Ropp_0.
  rewrite !calcular_fuerza_fst.
  rewrite inferir_PI_0, inferir_menos_PI_0, inferir_0_menos_2, inferir_0_2.
  destruct B64_normalizar_angulo_extremos as (_ & H2 & H3 & _).
  split; [repeat split; rewrite Rabs_right; lra|].
  split; [split; assumption|].
  exists 10, 0. repeat split. rewrite Rabs_right; lra.
Qed.

(** ** I. Antisymmetry up to the sampling of the force universe *)

Section Espejo.

Variables a v : R.
Hypothesis Hinactivas : sin_espejo_inactivas a v.

Lemma activacion_espejo (l : Etiqueta) :
  activacion l (- a) (- v) = activacion (espejo l) a v.
Proof.
  destruct (Hinactivas (Rule ZE NG PP)) as [H1 H2]; [left; reflexivity|].
  destruct (Hinactivas (Rule ZE NP PP)) as [H3 H4];
    [right; left; reflexivity|].
  rewrite !activacion_reglas.
  pose proof (angulo_rango NG a). pose proof (angulo_rango NP a).
  pose proof (angulo_rango ZE a). pose proof (angulo_rango PP a).
  pose proof (angulo_rango PG a).
  pose proof (velocidad_angular_rango NG v).
  pose proof (velocidad_angular_rango NP v).
  pose proof (velocidad_angular_rango ZE v).
  pose proof (velocidad_angular_rango PP v).
  pose proof (velocidad_angular_rango PG v).
  destruct l; cbn [espejo]; rewrite ?H1, ?H2, ?H3, ?H4, ?disparo_espejo;
    unfold disparo; cbn [antecedente_angulo antecedente_velocidad espejo];
    casos_minmax.
Qed.

(** The aggregated membership at the mirrored input is the mirror image of
    the aggregated membership. *)
Lemma agregada_espejo (u : R) :
  agregada (- a) (- v) u = agregada a v (- u).
Proof.
  rewrite !agregada_etiquetas, !activacion_espejo, !fuerza_espejo.
  cbn [espejo].
  generalize (Rmin (activacion NG a v) (fuerza PG u)).
  generalize (Rmin (activacion NP a v) (fuerza PP u)).
  generalize (Rmin (activacion ZE a v) (fuerza ZE u)).
  generalize (Rmin (activacion PP a v) (fuerza NP u)).
  generalize (Rmin (activacion PG a v) (fuerza NG u)).
  intros t1 t2 t3 t4 t5. casos_minmax.
Qed.

End Espejo.

(** The denominator at the mirrored input is at least 60 times the
    strength of either saturated label. *)
Lemma suma_reflejada_ge (a v : R) :
  let D' := suma (map (fun u => agregada a v (- u)) universo_fuerza) in
  60 * activacion NG a v <= D' /\ 60 * activacion PG a v <= D'.
Proof.
  intros D'. split.
  - replace 60 with (INR 60) by (rewrite INR_IZR_INZ; reflexivity).
    apply (suma_universo_ge _ 140 60); [lia| |].
    + intros u. apply agregada_rango.
    + intros i Hi. apply agregada_meseta_NG.
      pose proof (punto_le 140 i ltac:(lia)) as H0.
      pose proof (punto_le i 199 ltac:(lia)) as H1.
      rewrite (punto_IZR 140 140) in H0 by reflexivity.
      rewrite (punto_IZR 199 199) in H1 by reflexivity.
      lra.
  - replace 60 with (INR 60) by (rewrite INR_IZR_INZ; reflexivity).
    apply (suma_universo_ge _ 0 60); [lia| |].
    + intros u. apply agregada_rango.
    + intros i Hi. apply agregada_meseta_PG.
      pose proof (punto_le 0 i ltac:(lia)) as H0.
      pose proof (punto_le i 60 ltac:(lia)) as H1.
      rewrite (punto_IZR 0 0) in H0 by reflexivity.
      rewrite (punto_IZR 60 60) in H1 by reflexivity.
      lra.
Qed.

(** The arithmetic of the two centroids. *)
Lemma centroides_cercanos (N D p q : R) :
  0 < D -> 0 < D - p + q ->
  - 50 * D <= N <= 50 * D ->
  0 <= p -> 0 <= q ->
  60 * p <= D - p + q -> 60 * q <= D - p + q ->
  Rabs (N / D + (- N - 50 * p - 50 * q) / (D - p + q)) <= 5 / 3.
Proof.
  intros HD HD' HN Hp Hq Hp' Hq'.
  set (f := N / D).
  assert (Hf : - 50 <= f <= 50) by (apply cociente_cotas; lra).
  assert (HfD : N = f * D) by (unfold f; field; lra).
  set (D' := D - p + q) in *.
  assert (E : (f + (- N - 50 * p - 50 * q) / D') * D'
              = - (q * (50 - f) + p * (50 + f))).
  { rewrite HfD. unfold D'. field. fold D'. lra. }
  assert (H1 : 0 <= q * (50 - f)) by (apply Rmult_le_pos; lra).
  assert (H2 : 0 <= p * (50 + f)) by (apply Rmult_le_pos; lra).
  assert (H3 : q * (50 - f) + p * (50 + f) <= 5 / 3 * D').
  { destruct (Rle_dec p q) as [Hpq|Hpq].
    - assert (p * (50 + f) <= q * (50 + f))
        by (apply Rmult_le_compat_r; lra).
      lra.
    - assert (q * (50 - f) <= p * (50 - f))
        by (apply Rmult_le_compat_r; lra).
      lra. }
  apply Rabs_le. split.
  - apply Rmult_le_reg_r with D'; [exact HD'|]. lra.
  - apply Rmult_le_reg_r with D'; [exact HD'|]. lra.
Qed.

Lemma inferir_antisimetrica (a v : R) :
  normalizar_angulo a <> - PI ->
  sin_espejo_inactivas (normalizar_angulo a) v ->
  Rabs (inferir a v + inferir (- a) (- v)) <= 5 / 3.
Proof.
  intros Hne H. unfold inferir.
  rewrite (normalizar_angulo_opuesto a Hne).
  set (a' := normalizar_angulo a) in *.
  rewrite (centroide_ext (agregada (- a') (- v))
                         (fun u => agregada a' v (- u)))
    by (intros u; apply agregada_espejo, H).
  unfold centroide.
  destruct (centroide_reflejado (agregada a' v)) as [ED EN].
  destruct (suma_reflejada_ge a' v) as [Hp Hq].
  rewrite EN, ED. rewrite ED in Hp, Hq.
  rewrite agregada_en_menos_50, agregada_en_50 in *.
  pose proof (activacion_rango NG a' v) as [Hp0 _].
  pose proof (activacion_rango PG a' v) as [Hq0 _].
  pose proof (suma_agregada_nonneg a' v) as HD0.
  pose proof (suma_agregada_ge a' v 0 ltac:(lia)) as HpD.
  rewrite (punto_IZR 0 0) in HpD by reflexivity.
  replace (-50 + 0 * (1 / 2)) with (-50) in HpD by lra.
  rewrite agregada_en_menos_50 in HpD.
  pose proof (numerador_cotas (agregada a' v)
                (fun u => proj1 (agregada_rango _ _ u))) as HN.
  set (N := suma (map (fun u => u * agregada a' v u) universo_fuerza)) in *.
  set (D := suma (map (agregada a' v) universo_fuerza)) in *.
  set (p := activacion NG a' v) in *.
  set (q := activacion PG a' v) in *.
  destruct (Req_dec_T D 0) as [HD|HD];
    destruct (Req_dec_T (D - p + q) 0) as [HD'|HD'].
  - rewrite Rplus_0_r, Rabs_R0. lra.
  - exfalso. apply HD'. lra.
  - exfalso. apply HD. lra.
  - apply centroides_cercanos; lra.
Qed.

Lemma sin_espejo_inactivas_PI2 :
  forall r, In r reglas_sin_espejo ->
    disparo r (normalizar_angulo (PI / 2)) 0 = 0
    /\ disparo r (normalizar_angulo (- (PI / 2))) (- 0) = 0.
Proof.
  pose proof PI_RGT_0 as Hpi.
  rewrite (normalizar_angulo_opuesto _ normalizar_angulo_PI2_no_borde),
    normalizar_angulo_PI2.
  assert (E1 : angulo ZE (PI / 2) = 0)
    by (unfold angulo, radians; casos_mf).
  assert (E2 : angulo ZE (- (PI / 2)) = 0)
    by (unfold angulo, radians; casos_mf).
  intros r Hr. unfold reglas_sin_espejo in Hr. cbn [In] in Hr.
  destruct Hr as [<-|[<-|[]]]; unfold disparo;
    cbn [antecedente_angulo antecedente_velocidad];
    rewrite E1, E2;
    match goal with
    | |- Rmin 0 ?x = 0 /\ Rmin 0 ?y = 0 =>
        pose proof (velocidad_angular_rango NG 0);
        pose proof (velocidad_angular_rango NG (- 0));
        pose proof (velocidad_angular_rango NP 0);
        pose proof (velocidad_angular_rango NP (- 0))
    end;
    split; casos_minmax.
Qed.

(** C5 (amended): when the normalisation is odd at the angle (the
    normalised angle of -a is the opposite of that of a, which fails where
    both are sent to the same end of the interval) and the two rules
    without a mirror image, (Z, NG -> PP) and (Z, NP -> PP), fire neither
    at (a, v) nor at (-a, -v), the forces at (a, v) and at (-a, -v) are
    opposite up to 5/3 newton. *)
Theorem calcular_fuerza_antisimetrica (a v : R) (s1 s2 : Simulacion) :
  normalizar_angulo (- a) = - normalizar_angulo a ->
  (forall r, In r reglas_sin_espejo ->
     disparo r (normalizar_angulo a) v = 0
     /\ disparo r (normalizar_angulo (- a)) (- v) = 0) ->
  exists f1 f2 : R,
    fst (calcular_fuerza a v s1) = Valor f1
    /\ fst (calcular_fuerza (- a) (- v) s2) = Valor f2
    /\ Rabs (f1 - - f2) <= 5 / 3.
Proof.
  intros Himpar H.
  assert (Hne : normalizar_angulo a <> - PI).
  { intros Hn.
    pose proof (normalizar_angulo_rango (- a)) as [_ Hhi].
    rewrite Himpar, Hn in Hhi. lra. }
  exists (inferir a v), (inferir (- a) (- v)).
  rewrite !calcular_fuerza_fst. split; [reflexivity|split; [reflexivity|]].
  replace (inferir a v - - inferir (- a) (- v))
    with (inferir a v + inferir (- a) (- v)) by lra.
  apply inferir_antisimetrica; [exact Hne|].
  intros r Hr. destruct (H r Hr) as [H1 H2].
  rewrite Himpar in H2. split; assumption.
Qed.

Lemma normalizar_angulo_PI2_impar :
  normalizar_angulo (- (PI / 2)) = - normalizar_angulo (PI / 2).
Proof.
  exact (normalizar_angulo_opuesto _ normalizar_angulo_PI2_no_borde).
Qed.

(** C5 (amended), at angle π/2 and velocity 0. *)
Lemma calcular_fuerza_antisimetrica_en_PI2 :
  normalizar_angulo (- (PI / 2)) = - normalizar_angulo (PI / 2)
  /\ (forall r, In r reglas_sin_espejo ->
        disparo r (normalizar_angulo (PI / 2)) 0 = 0
        /\ disparo r (normalizar_angulo (- (PI / 2))) (- 0) = 0)
  /\ exists f1 f2 : R,
       fst (calcular_fuerza (PI / 2) 0 simulador) = Valor f1
       /\ fst (calcular_fuerza (- (PI / 2)) (- 0) simulador) = Valor f2
       /\ Rabs (f1 - - f2) <= 5 / 3.
Proof.
  split; [exact normalizar_angulo_PI2_impar|].
  split; [exact sin_espejo_inactivas_PI2|].
  exact (calcular_fuerza_antisimetrica (PI / 2) 0 simulador simulador
           normalizar_angulo_PI2_impar sin_espejo_inactivas_PI2).
Defined.

(** ** J. The simulation loop *)

(** C6: one iteration computes the force and the acceleration once, from
    the angle and velocity at the start of the iteration; the new velocity
    is velocity + acceleration·dt and the new angle is
    angle + (new velocity)·dt + 0.5·acceleration·dt². *)
Theorem paso_integracion (e : Estado) (s : Simulacion) :
  exists (F : R) (e' : Estado) (s' : Simulacion),
    calcular_fuerza (angulo_actual e) (velocidad_actual e) s = (Valor F, s')
    /\ paso e s = (Valor e', s')
    /\ let acc :=
         calcular_aceleracion_angular
           (angulo_actual e) (velocidad_actual e) F in
       velocidad_actual e' = velocidad_actual e + acc * paso_tiempo
       /\ angulo_actual e'
          = angulo_actual e + velocidad_actual e' * paso_tiempo
            + 5 / 10 * acc * paso_tiempo ^ 2.
Proof.
  destruct (calcular_fuerza_inferir (angulo_actual e) (velocidad_actual e) s)
    as [s' HF].
  eexists _, _, s'. split; [exact HF|].
  split.
  - unfold paso, bind. rewrite HF. reflexivity.
  - cbn [velocidad_actual angulo_actual]. split; [reflexivity|lra].
Qed.

Lemma paso_siguiente (e : Estado) (s : Simulacion) :
  exists e' s',
    paso e s = (Valor e', s')
    /\ (angulo_actual e', velocidad_actual e')
       = siguiente (angulo_actual e, velocidad_actual e)
    /\ historial_fuerzas e'
       = historial_fuerzas e
         ++ [inferir (angulo_actual e) (velocidad_actual e)]
    /\ historial_angulos e'
       = historial_angulos e
         ++ [degrees (normalizar_angulo (angulo_actual e'))]
    /\ historial_velocidades e'
       = historial_velocidades e ++ [degrees (velocidad_actual e')].
Proof.
  destruct (calcular_fuerza_inferir (angulo_actual e) (velocidad_actual e) s)
    as [s' HF].
  eexists _, s'. split.
  - unfold paso, bind. rewrite HF. reflexivity.
  - cbn. repeat split; reflexivity.
Qed.

Lemma trayectoria_S (n : nat) (x : R * R) :
  trayectoria (S n) x = trayectoria n (siguiente x).
Proof.
  unfold trayectoria. apply Nat.iter_succ_r.
Qed.

Lemma map_seq_S {A} (g : nat -> A) (n : nat) :
  map g (seq 0 (S n)) = g 0%nat :: map (fun i => g (S i)) (seq 0 n).
Proof.
  cbn [seq map]. f_equal.
  rewrite <- seq_shift, map_map. reflexivity.
Qed.

Lemma nth_error_map_seq {A} (g : nat -> A) (n i : nat) :
  (i < n)%nat -> nth_error (map g (seq 0 n)) i = Some (g i).
Proof.
  intros Hi. rewrite nth_error_map, nth_error_seq.
  destruct (Nat.ltb_spec i n) as [_|Hge]; [reflexivity|lia].
Qed.

Lemma repetir_historial (n : nat) :
  forall (e : Estado) (s : Simulacion),
    let x := (angulo_actual e, velocidad_actual e) in
    exists e' s',
      repetir n e s = (Valor e', s')
      /\ (angulo_actual e', velocidad_actual e') = trayectoria n x
      /\ historial_fuerzas e'
         = historial_fuerzas e ++ map (fuerza_en x) (seq 0 n)
      /\ historial_angulos e'
         = historial_angulos e ++ map (angulo_en x) (seq 0 n)
      /\ historial_velocidades e'
         = historial_velocidades e ++ map (velocidad_en x) (seq 0 n).
Proof.
  induction n as [|n IH]; intros e s x.
  - exists e, s. cbn. rewrite !app_nil_r. repeat split; reflexivity.
  - destruct (paso_siguiente e s) as (e1 & s1 & Hp & Hx & Hf & Ha & Hv).
    destruct (IH e1 s1) as (e' & s' & Hr & Hx' & Hf' & Ha' & Hv').
    exists e', s'. split.
    { cbn [repetir]. unfold bind. rewrite Hp. exact Hr. }
    fold x in Hx.
    assert (Ea : angulo_actual e1 = fst (siguiente x))
      by (rewrite <- Hx; reflexivity).
    assert (Ev : velocidad_actual e1 = snd (siguiente x))
      by (rewrite <- Hx; reflexivity).
    rewrite Hx in Hx', Hf', Ha', Hv'.
    assert (Mf : map (fun i => fuerza_en x (S i)) (seq 0 n)
                 = map (fuerza_en (siguiente x)) (seq 0 n)).
    { apply map_ext. intros i. unfold fuerza_en.
      rewrite trayectoria_S. reflexivity. }
    assert (Ma : map (fun i => angulo_en x (S i)) (seq 0 n)
                 = map (angulo_en (siguiente x)) (seq 0 n)).
    { apply map_ext. intros i. unfold angulo_en.
      rewrite !trayectoria_S. reflexivity. }
    assert (Mv : map (fun i => velocidad_en x (S i)) (seq 0 n)
                 = map (velocidad_en (siguiente x)) (seq 0 n)).
    { apply map_ext. intros i. unfold velocidad_en.
      rewrite !trayectoria_S. reflexivity. }
    rewrite !map_seq_S, Mf, Ma, Mv.
    split; [rewrite trayectoria_S; exact Hx'|].
    rewrite Hf', Hf, Ha', Ha, Hv', Hv, Ea, Ev, <- !app_assoc.
    repeat split; reflexivity.
Qed.

Lemma simular_historial (a0 v0 : R) (s : Simulacion) :
  let x0 := (radians a0, v0) in
  exists e s',
    simular a0 v0 s = (Valor e, s')
    /\ historial_fuerzas e = map (fuerza_en x0) (seq 0 pasos)
    /\ historial_angulos e = map (angulo_en x0) (seq 0 pasos)
    /\ historial_velocidades e = map (velocidad_en x0) (seq 0 pasos).
Proof.
  intros x0. unfold simular.
  match goal with |- context [repetir pasos ?e0 s] =>
    destruct (repetir_historial pasos e0 s) as (e & s' & Hr & _ & Hf & Ha & Hv)
  end.
  exists e, s'. split; [exact Hr|].
  cbn [angulo_actual velocidad_actual historial_fuerzas historial_angulos
       historial_velocidades app] in Hf, Ha, Hv.
  repeat split; assumption.
Qed.

(** C10: in a run, entry [i] of the force history is the force that the
    controller returns for the angle and velocity that the loop holds
    before iteration [i], whereas entry [i] of the angle and velocity
    histories is the angle (normalised, in degrees) and the velocity (in
    degrees) that the loop holds after iteration [i]. *)
Theorem simular_alineacion (a0 v0 : R) (s : Simulacion) (i : nat) :
  (i < pasos)%nat ->
  exists (final antes despues : Estado) (s_final s_antes s_despues : Simulacion)
         (F : R),
    simular a0 v0 s = (Valor final, s_final)
    /\ repetir i (estado_inicial a0 v0) s = (Valor antes, s_antes)
    /\ paso antes s_antes = (Valor despues, s_despues)
    /\ calcular_fuerza (angulo_actual antes) (velocidad_actual antes) s_antes
       = (Valor F, s_despues)
    /\ nth_error (historial_fuerzas final) i = Some F
    /\ nth_error (historial_angulos final) i
       = Some (degrees (normalizar_angulo (angulo_actual despues)))
    /\ nth_error (historial_velocidades final) i
       = Some (degrees (velocidad_actual despues)).
Proof.
  intros Hi.
  destruct (simular_historial a0 v0 s)
    as (final & s_final & Hr & Hf & Ha & Hv).
  destruct (repetir_historial i (estado_inicial a0 v0) s)
    as (antes & s_antes & Hri & Hx & _).
  cbn [estado_inicial angulo_actual velocidad_actual] in Hx.
  destruct (calcular_fuerza_inferir
              (angulo_actual antes) (velocidad_actual antes) s_antes)
    as [s_despues HF].
  destruct (paso_siguiente antes s_antes)
    as (despues & s_despues' & Hp & Hx' & _).
  assert (Hs : s_despues' = s_despues).
  { unfold paso, bind in Hp. rewrite HF in Hp. unfold ret in Hp.
    congruence. }
  subst s_despues'.
  exists final, antes, despues, s_final, s_antes, s_despues,
    (inferir (angulo_actual antes) (velocidad_actual antes)).
  rewrite Hf, Ha, Hv, !nth_error_map_seq by exact Hi.
  unfold fuerza_en, angulo_en, velocidad_en.
  change (trayectoria (S i) (radians a0, v0))
    with (siguiente (trayectoria i (radians a0, v0))).
  rewrite <- Hx, <- Hx'. cbn [fst snd].
  repeat split; assumption || reflexivity.
Qed.

(** C10, at the first iteration of the run of the module. *)
Lemma simular_alineacion_inicio :
  (0 < pasos)%nat
  /\ exists (final antes despues : Estado)
            (s_final s_antes s_despues : Simulacion) (F : R),
       simular 175 0 simulador = (Valor final, s_final)
       /\ repetir 0 (estado_inicial 175 0) simulador = (Valor antes, s_antes)
       /\ paso antes s_antes = (Valor despues, s_despues)
       /\ calcular_fuerza (angulo_actual antes) (velocidad_actual antes)
            s_antes
          = (Valor F, s_despues)
       /\ nth_error (historial_fuerzas final) 0 = Some F
       /\ nth_error (historial_angulos final) 0
          = Some (degrees (normalizar_angulo (angulo_actual despues)))
       /\ nth_error (historial_velocidades final) 0
          = Some (degrees (velocidad_actual despues)).
Proof.
  assert (H : (0 < pasos)%nat) by (rewrite pasos_1500; lia).
  split; [exact H|].
  exact (simular_alineacion 175 0 simulador 0 H).
Defined.

(** Every run records three histories of 1500 entries, every recorded
    angle in [-180, 180] degrees and every recorded force in [-50, 50]. *)
Lemma simular_historiales (a0 v0 : R) (s : Simulacion) :
  exists e s',
    simular a0 v0 s = (Valor e, s')
    /\ length (historial_angulos e) = 1500%nat
    /\ length (historial_velocidades e) = 1500%nat
    /\ length (historial_fuerzas e) = 1500%nat
    /\ (forall x, In x (historial_angulos e) -> -180 <= x <= 180)
    /\ (forall x, In x (historial_fuerzas e) -> -50 <= x <= 50).
Proof.
  destruct (simular_historial a0 v0 s) as (e & s' & Hr & Hf & Ha & Hv).
  exists e, s'. split; [exact Hr|].
  rewrite Hf, Ha, Hv, !length_map, !length_seq, pasos_1500.
  split; [reflexivity|]. split; [reflexivity|]. split; [reflexivity|].
  split.
  - intros x Hx. apply in_map_iff in Hx as (i & <- & _).
    apply degrees_normalizar_rango.
  - intros x Hx. apply in_map_iff in Hx as (i & <- & _).
    apply inferir_rango.
Qed.

(** The run of the module. *)
Lemma ejecucion_historiales (s : Simulacion) :
  exists e s',
    ejecucion s = (Valor e, s')
    /\ length (historial_angulos e) = 1500%nat
    /\ length (historial_velocidades e) = 1500%nat
    /\ length (historial_fuerzas e) = 1500%nat
    /\ (forall x, In x (historial_angulos e) -> -180 <= x <= 180)
    /\ (forall x, In x (historial_fuerzas e) -> -50 <= x <= 50).
Proof. apply simular_historiales. Qed.

(** * Further properties of the code *)

(** ** L. The normalisation as a choice of representative *)

Lemma sin_periodo (x : R) (k : Z) : sin (x + 2 * PI * IZR k) = sin x.
Proof.
  destruct (Z_le_gt_dec 0 k) as [Hk|Hk].
  - rewrite <- (Z2Nat.id k Hk), <- INR_IZR_INZ.
    replace (x + 2 * PI * INR (Z.to_nat k))
      with (x + 2 * INR (Z.to_nat k) * PI) by lra.
    apply sin_period.
  - rewrite <- (sin_period (x + 2 * PI * IZR k) (Z.to_nat (- k))).
    rewrite INR_IZR_INZ, Z2Nat.id by lia. rewrite opp_IZR.
    f_equal. lra.
Qed.

Lemma cos_periodo (x : R) (k : Z) : cos (x + 2 * PI * IZR k) = cos x.
Proof.
  destruct (Z_le_gt_dec 0 k) as [Hk|Hk].
  - rewrite <- (Z2Nat.id k Hk), <- INR_IZR_INZ.
    replace (x + 2 * PI * INR (Z.to_nat k))
      with (x + 2 * INR (Z.to_nat k) * PI) by lra.
    apply cos_period.
  - rewrite <- (cos_period (x + 2 * PI * IZR k) (Z.to_nat (- k))).
    rewrite INR_IZR_INZ, Z2Nat.id by lia. rewrite opp_IZR.
    f_equal. lra.
Qed.

(** X1: the normalised angle is the same angle: it differs from the
    argument by a whole number of turns and has the same sine and
    cosine. *)
Theorem normalizar_angulo_mismo_angulo (t : R) :
  (exists k : Z, t = normalizar_angulo t + 2 * PI * IZR k)
  /\ sin (normalizar_angulo t) = sin t
  /\ cos (normalizar_angulo t) = cos t.
Proof.
  destruct (normalizar_angulo_multiplo t) as [k Hk].
  split; [exists k; exact Hk|].
  split.
  - rewrite Hk at 2. symmetry. apply sin_periodo.
  - rewrite Hk at 2. symmetry. apply cos_periodo.
Qed.

(** ** M. The dynamics *)

(** The acceleration with the angle itself in place of the normalised
    angle. *)
Lemma aceleracion_sin_normalizar (a v F : R) :
  calcular_aceleracion_angular a v F
  = (gravedad * sin a
     + cos a * ((- F - masa_pendulo * longitud * v ^ 2 * sin a)
                / (masa_carro + masa_pendulo)))
    / (longitud * (4 / 3 - (masa_pendulo * cos a ^ 2)
                           / (masa_carro + masa_pendulo))).
Proof.
  unfold calcular_aceleracion_angular.
  destruct (normalizar_angulo_multiplo a) as [k Hk].
  assert (Es : sin (normalizar_angulo a) = sin a)
    by (rewrite Hk at 2; symmetry; apply sin_periodo).
  assert (Ec : cos (normalizar_angulo a) = cos a)
    by (rewrite Hk at 2; symmetry; apply cos_periodo).
  cbv zeta. rewrite Es, Ec. reflexivity.
Qed.

(** X6: the normalisation inside [calcular_aceleracion_angular] changes
    nothing: the result is the cart-pole quotient evaluated at the angle as
    given, and the function is 2π-periodic in the angle. *)
Theorem calcular_aceleracion_angular_periodica (a v F : R) (k : Z) :
  calcular_aceleracion_angular a v F
  = (981 / 100 * sin a
     + cos a * ((- F - 2 / 10 * (5 / 10) * v ^ 2 * sin a) / (1 + 2 / 10)))
    / (5 / 10 * (4 / 3 - 2 / 10 * cos a ^ 2 / (1 + 2 / 10)))
  /\ calcular_aceleracion_angular (a + 2 * PI * IZR k) v F
     = calcular_aceleracion_angular a v F.
Proof.
  split.
  - apply aceleracion_sin_normalizar.
  - unfold calcular_aceleracion_angular.
    rewrite normalizar_angulo_periodo. reflexivity.
Qed.

(** X7: the dynamics is odd: mirroring angle, velocity and force mirrors
    the acceleration, for every angle (also the odd multiples of π, where
    the normalisation itself is not odd). *)
Theorem calcular_aceleracion_angular_impar (a v F : R) :
  calcular_aceleracion_angular (- a) (- v) (- F)
  = - calcular_aceleracion_angular a v F.
Proof.
  rewrite !aceleracion_sin_normalizar, sin_neg, cos_neg.
  pose proof (denominador_positivo a) as Hd.
  unfold gravedad, masa_pendulo, longitud, masa_carro in *.
  field. lra.
Qed.

Lemma denominador_cotas (t : R) :
  7 / 12 <= longitud * (4 / 3 - (masa_pendulo * cos t ^ 2)
                                / (masa_carro + masa_pendulo)) <= 2 / 3.
Proof.
  unfold longitud, masa_pendulo, masa_carro.
  assert (H : 0 <= cos t ^ 2 <= 1).
  { pose proof (COS_bound t). split; [apply pow2_ge_0|]. nra. }
  lra.
Qed.

Lemma aceleracion_cota (a v F : R) :
  Rabs (calcular_aceleracion_angular a v F)
  <= 12 / 7 * (981 / 100 + (Rabs F + 1 / 10 * v ^ 2) / (12 / 10)).
Proof.
  rewrite aceleracion_sin_normalizar.
  pose proof (denominador_cotas a) as [Hd _].
  set (den := longitud * (4 / 3 - (masa_pendulo * cos a ^ 2)
                                  / (masa_carro + masa_pendulo))) in *.
  unfold gravedad, masa_pendulo, longitud, masa_carro.
  pose proof (SIN_bound a) as Hs. pose proof (COS_bound a) as Hc.
  pose proof (pow2_ge_0 v) as Hv.
  pose proof (Rabs_pos F) as HF0.
  assert (HF : - Rabs F <= F <= Rabs F).
  { split; [pose proof (Rle_abs (- F)) as H; rewrite Rabs_Ropp in H; lra
           |apply Rle_abs]. }
  set (T := (Rabs F + 1 / 10 * v ^ 2) / (12 / 10)).
  set (t := (- F - 2 / 10 * (5 / 10) * v ^ 2 * sin a) / (1 + 2 / 10)).
  assert (Ht : - T <= t <= T).
  { unfold t, T.
    assert (- (v ^ 2) <= v ^ 2 * sin a <= v ^ 2) by nra.
    split.
    - apply Rmult_le_reg_r with (12 / 10); [lra|].
      replace ((- F - 2 / 10 * (5 / 10) * v ^ 2 * sin a) / (1 + 2 / 10)
               * (12 / 10))
        with (- F - 1 / 10 * (v ^ 2 * sin a)) by field.
      replace (- ((Rabs F + 1 / 10 * v ^ 2) / (12 / 10)) * (12 / 10))
        with (- (Rabs F + 1 / 10 * v ^ 2)) by field.
      lra.
    - apply Rmult_le_reg_r with (12 / 10); [lra|].
      replace ((- F - 2 / 10 * (5 / 10) * v ^ 2 * sin a) / (1 + 2 / 10)
               * (12 / 10))
        with (- F - 1 / 10 * (v ^ 2 * sin a)) by field.
      replace ((Rabs F + 1 / 10 * v ^ 2) / (12 / 10) * (12 / 10))
        with (Rabs F + 1 / 10 * v ^ 2) by field.
      lra. }
  assert (HT : 0 <= T) by lra.
  assert (Hct : - T <= cos a * t <= T) by nra.
  set (num := 981 / 100 * sin a + cos a * t).
  assert (Hnum : - (981 / 100 + T) <= num <= 981 / 100 + T)
    by (unfold num; lra).
  assert (Hden : 0 < den) by lra.
  apply Rabs_le. split.
  - apply Rmult_le_reg_r with den; [exact Hden|].
    replace (num / den * den) with num by (field; lra). nra.
  - apply Rmult_le_reg_r with den; [exact Hden|].
    replace (num / den * den) with num by (field; lra). nra.
Qed.

(** X8: the acceleration is bounded in terms of the force and the
    velocity: |acc| <= 12/7 · (9.81 + (|F| + 0.1·v²) / 1.2); the
    denominator of the quotient lies between 7/12 and 2/3, so the division
    never meets a zero denominator. *)
Theorem calcular_aceleracion_angular_acotada (a v F : R) :
  Rabs (calcular_aceleracion_angular a v F)
  <= 12 / 7 * (981 / 100 + (Rabs F + 1 / 10 * v ^ 2) / (12 / 10))
  /\ 7 / 12
     <= longitud * (4 / 3 - (masa_pendulo * cos (normalizar_angulo a) ^ 2)
                            / (masa_carro + masa_pendulo))
     <= 2 / 3.
Proof.
  split; [apply aceleracion_cota|apply denominador_cotas].
Qed.

(** X9: without force, every multiple of π (upright and hanging) is an
    equilibrium of the angle, whatever the velocity. *)
Theorem calcular_aceleracion_angular_equilibrio (k : Z) (v : R) :
  calcular_aceleracion_angular (IZR k * PI) v 0 = 0.
Proof.
  rewrite aceleracion_sin_normalizar.
  rewrite (sin_eq_0_1 (IZR k * PI)) by (exists k; reflexivity).
  unfold Rdiv. rewrite !Rmult_0_r, Ropp_0, Rminus_0_r, Rmult_0_l,
    Rmult_0_r, Rplus_0_r, Rmult_0_l.
  reflexivity.
Qed.

(** X10: at rest and without force the acceleration has the sign of the
    normalised angle: the pendulum falls away from the upright position. *)
Theorem calcular_aceleracion_angular_inestable (a : R) :
  normalizar_angulo a <> 0 ->
  normalizar_angulo a <> - PI ->
  0 < normalizar_angulo a * calcular_aceleracion_angular a 0 0.
Proof.
  intros H0 Hpi.
  pose proof (normalizar_angulo_rango a) as [Hlo Hhi].
  unfold calcular_aceleracion_angular. cbv zeta.
  set (t := normalizar_angulo a) in *.
  pose proof (denominador_positivo t) as Hd.
  set (den := longitud * (4 / 3 - (masa_pendulo * cos t ^ 2)
                                  / (masa_carro + masa_pendulo))) in *.
  replace (gravedad * sin t
           + cos t * ((- 0 - masa_pendulo * longitud * 0 ^ 2 * sin t)
                      / (masa_carro + masa_pendulo)))
    with (gravedad * sin t)
    by (unfold masa_carro, masa_pendulo; field).
  assert (Hts : 0 < t * sin t).
  { destruct (Rlt_dec 0 t) as [Hp|Hn].
    - pose proof (sin_gt_0 t Hp Hhi). nra.
    - assert (Hneg : t < 0) by lra.
      pose proof (sin_lt_0_var t ltac:(lra) Hneg). nra. }
  unfold gravedad.
  apply Rmult_lt_reg_r with den; [exact Hd|].
  replace (t * (981 / 100 * sin t / den) * den)
    with (981 / 100 * (t * sin t)) by (field; lra).
  nra.
Qed.

(** X10, at a quarter turn. *)
Lemma calcular_aceleracion_angular_inestable_PI2 :
  normalizar_angulo (PI / 2) <> 0
  /\ normalizar_angulo (PI / 2) <> - PI
  /\ 0 < normalizar_angulo (PI / 2)
         * calcular_aceleracion_angular (PI / 2) 0 0.
Proof.
  assert (H0 : normalizar_angulo (PI / 2) <> 0).
  { pose proof PI_RGT_0. rewrite normalizar_angulo_PI2. lra. }
  split; [exact H0|].
  split; [exact normalizar_angulo_PI2_no_borde|].
  exact (calcular_aceleracion_angular_inestable (PI / 2) H0
           normalizar_angulo_PI2_no_borde).
Defined.

(** X11: a larger force gives a smaller acceleration while the cosine of
    the angle is positive (pendulum above the horizontal), a larger one
    while it is negative (below the horizontal), and the same at the
    horizontal. *)
Theorem calcular_aceleracion_angular_fuerza (a v F1 F2 : R) :
  F1 < F2 ->
  (0 < cos a ->
   calcular_aceleracion_angular a v F2 < calcular_aceleracion_angular a v F1)
  /\ (cos a < 0 ->
      calcular_aceleracion_angular a v F1
      < calcular_aceleracion_angular a v F2)
  /\ (cos a = 0 ->
      calcular_aceleracion_angular a v F1
      = calcular_aceleracion_angular a v F2).
Proof.
  intros HF.
  rewrite !aceleracion_sin_normalizar.
  pose proof (denominador_positivo a) as Hd.
  set (den := longitud * (4 / 3 - (masa_pendulo * cos a ^ 2)
                                  / (masa_carro + masa_pendulo))) in *.
  unfold gravedad, masa_pendulo, longitud, masa_carro.
  assert (E : forall F,
             (981 / 100 * sin a
              + cos a * ((- F - 2 / 10 * (5 / 10) * v ^ 2 * sin a)
                         / (1 + 2 / 10))) / den * den
             = 981 / 100 * sin a
               - cos a * (1 / 10 * v ^ 2 * sin a) / (12 / 10)
               - cos a * F / (12 / 10))
    by (intros F; field; lra).
  split; [|split].
  - intros Hc. apply Rmult_lt_reg_r with den; [exact Hd|].
    rewrite !E. nra.
  - intros Hc. apply Rmult_lt_reg_r with den; [exact Hd|].
    rewrite !E. nra.
  - intros Hc. apply Rmult_eq_reg_r with den; [|lra].
    rewrite !E, Hc. lra.
Qed.

(** X11, upright: a force of 1 against a force of 0. *)
Lemma calcular_aceleracion_angular_fuerza_en_0 :
  0 < 1
  /\ (0 < cos 0 ->
      calcular_aceleracion_angular 0 0 1 < calcular_aceleracion_angular 0 0 0)
  /\ (cos 0 < 0 ->
      calcular_aceleracion_angular 0 0 0 < calcular_aceleracion_angular 0 0 1)
  /\ (cos 0 = 0 ->
      calcular_aceleracion_angular 0 0 0 = calcular_aceleracion_angular 0 0 1).
Proof.
  split; [exact Rlt_0_1|].
  exact (calcular_aceleracion_angular_fuerza 0 0 0 1 Rlt_0_1).
Defined.

(** ** N. Runs of the simulation *)





(** ** O. The rule base and the partitions *)

Lemma Etiqueta_eqb_eq (l1 l2 : Etiqueta) :
  Etiqueta_eqb l1 l2 = true <-> l1 = l2.
Proof. destruct l1, l2; cbn; split; congruence. Qed.

Lemma Regla_eqb_eq (r1 r2 : Regla) : Regla_eqb r1 r2 = true <-> r1 = r2.
Proof.
  destruct r1 as [a1 v1 f1], r2 as [a2 v2 f2]. unfold Regla_eqb.
  cbn [antecedente_angulo antecedente_velocidad consecuente].
  rewrite !Bool.andb_true_iff, !Etiqueta_eqb_eq.
  split; [intros [[-> ->] ->]; reflexivity|intros [= -> -> ->]; tauto].
Qed.

Lemma en_reglas_In (r : Regla) : en_reglas r = true <-> In r reglas.
Proof.
  unfold en_reglas. rewrite existsb_exists. split.
  - intros (r' & Hin & Heq). apply Regla_eqb_eq in Heq. subst. exact Hin.
  - intros Hin. exists r. split; [exact Hin|apply Regla_eqb_eq; reflexivity].
Qed.

(** X16: the rule base has 15 rules, no two of them for the same pair of
    antecedent labels, and the rules whose mirror image is not a rule are
    exactly (Z, NG -> PP) and (Z, NP -> PP). *)
Theorem reglas_tabla :
  length reglas = 15%nat
  /\ List.NoDup (map (fun r => (antecedente_angulo r, antecedente_velocidad r))
                     reglas)
  /\ List.filter (fun r => negb (en_reglas (espejo_regla r))) reglas
     = reglas_sin_espejo
  /\ List.Forall (fun r => In (espejo_regla r) reglas
                           <-> ~ In r reglas_sin_espejo) reglas.
Proof.
  split; [reflexivity|].
  split.
  { unfold reglas.
    cbn [map antecedente_angulo antecedente_velocidad].
    repeat (apply List.NoDup_cons;
            [cbn [In]; intros H;
             repeat (destruct H as [H|H]; [discriminate H|]); exact H|]).
    apply List.NoDup_nil. }
  split; [reflexivity|].
  apply List.Forall_forall. intros r Hr.
  rewrite <- en_reglas_In.
  unfold reglas in Hr. cbn [In] in Hr.
  repeat (destruct Hr as [<-|Hr];
          [unfold reglas_sin_espejo; cbn; split;
           [intros Hen Hin;
            first [discriminate Hen
                  |repeat (destruct Hin as [Hin|Hin]; [discriminate Hin|]);
                   exact Hin]
           |intros Hnin;
            first [reflexivity|exfalso; apply Hnin; tauto]]|]).
  destruct Hr.
Qed.

Lemma espejo_espejo (l : Etiqueta) : espejo (espejo l) = l.
Proof. destruct l; reflexivity. Qed.

(** X17: the three partitions are symmetric about zero: the membership
    function of a label at [- x] is that of the mirrored label at [x]. *)
Theorem particiones_simetricas (l : Etiqueta) (x : R) :
  angulo (espejo l) (- x) = angulo l x
  /\ velocidad_angular (espejo l) (- x) = velocidad_angular l x
  /\ fuerza (espejo l) (- x) = fuerza l x.
Proof.
  rewrite angulo_espejo, velocidad_angular_espejo, fuerza_espejo,
    espejo_espejo.
  repeat split; reflexivity.
Qed.

(** ** P. The range and the plateaus of the force *)

Lemma numerador_cota_superior (mu : R -> R) :
  (forall u, 0 <= mu u) ->
  suma (map (fun u => u * mu u) universo_fuerza)
  <= 99 / 2 * suma (map mu universo_fuerza).
Proof.
  intros Hmu. rewrite <- suma_map_escala.
  apply suma_map_le. intros u Hu.
  rewrite universo_fuerza_puntos in Hu.
  apply in_map_iff in Hu as (i & <- & Hi). apply in_seq in Hi.
  pose proof (punto_le i 199 ltac:(lia)) as H1.
  rewrite (punto_IZR 199 199) in H1 by reflexivity.
  pose proof (Hmu (punto i)). nra.
Qed.

(** X15: for every angle, velocity and state of the simulator the
    controller returns a force between -50 and 49.5, the first and the last
    sample of the force universe. *)
Theorem calcular_fuerza_acotada (a v : R) (s : Simulacion) :
  exists f s',
    calcular_fuerza a v s = (Valor f, s') /\ -50 <= f <= 99 / 2.
Proof.
  destruct (calcular_fuerza_inferir a v s) as [s' H].
  exists (inferir a v), s'. split; [exact H|].
  split; [apply inferir_rango|].
  unfold inferir, centroide.
  destruct (Req_dec_T _ 0) as [H0|Hne]; [lra|].
  pose proof (suma_agregada_nonneg (normalizar_angulo a) v) as HD.
  pose proof (numerador_cota_superior (agregada (normalizar_angulo a) v)
                (fun u => proj1 (agregada_rango _ _ u))) as HN.
  set (D := suma (map (agregada (normalizar_angulo a) v) universo_fuerza))
    in *.
  apply Rmult_le_reg_r with D; [lra|].
  match goal with
  | |- ?n / D * D <= _ => replace (n / D * D) with n by (field; exact Hne)
  end.
  exact HN.
Qed.

(** The centroid when a triangular set is the only active output label. *)
Lemma centroide_triangular (a v : R) (l : Etiqueta) :
  l = NP \/ l = ZE \/ l = PP ->
  (forall l', l' <> l -> activacion l' a v = 0) ->
  0 < activacion l a v ->
  centroide (agregada a v) universo_fuerza = Some (pico l).
Proof.
  intros Hl Hotras Hpos.
  pose proof (agregada_una a v l Hotras) as Hag.
  pose proof (activacion_rango l a v) as Hr.
  destruct Hl as [Hl|[Hl|Hl]]; subst l.
  - apply (centroide_simetrico _ (pico NP) 61 39); cbn [pico].
    + lia.
    + rewrite (punto_IZR 61 61), (punto_IZR (61 + 39) 100) by reflexivity.
      lra.
    + intros i Hi. rewrite Hag.
      pose proof (punto_le i 60 ltac:(lia)) as H.
      rewrite (punto_IZR 60 60) in H by reflexivity.
      replace (fuerza NP (punto i)) with 0 by (unfold fuerza; casos_mf).
      casos_minmax.
    + intros i Hi. rewrite Hag.
      pose proof (punto_le 100 i ltac:(lia)) as H.
      rewrite (punto_IZR 100 100) in H by reflexivity.
      replace (fuerza NP (punto i)) with 0 by (unfold fuerza; casos_mf).
      casos_minmax.
    + intros u. rewrite !Hag. f_equal. unfold fuerza. casos_mf.
    + pose proof (suma_agregada_ge a v 80 ltac:(lia)) as H.
      rewrite Hag, (punto_IZR 80 80) in H by reflexivity.
      replace (fuerza NP (-50 + 80 * (1 / 2))) with 1 in H
        by (unfold fuerza; casos_mf).
      revert H. casos_minmax.
  - apply (centroide_simetrico _ (pico ZE) 81 39); cbn [pico].
    + lia.
    + rewrite (punto_IZR 81 81), (punto_IZR (81 + 39) 120) by reflexivity.
      lra.
    + intros i Hi. rewrite Hag.
      pose proof (punto_le i 80 ltac:(lia)) as H.
      rewrite (punto_IZR 80 80) in H by reflexivity.
      replace (fuerza ZE (punto i)) with 0 by (unfold fuerza; casos_mf).
      casos_minmax.
    + intros i Hi. rewrite Hag.
      pose proof (punto_le 120 i ltac:(lia)) as H.
      rewrite (punto_IZR 120 120) in H by reflexivity.
      replace (fuerza ZE (punto i)) with 0 by (unfold fuerza; casos_mf).
      casos_minmax.
    + intros u. rewrite !Hag. f_equal. unfold fuerza. casos_mf.
    + pose proof (suma_agregada_ge a v 100 ltac:(lia)) as H.
      rewrite Hag, (punto_IZR 100 100) in H by reflexivity.
      replace (fuerza ZE (-50 + 100 * (1 / 2))) with 1 in H
        by (unfold fuerza; casos_mf).
      revert H. casos_minmax.
  - apply (centroide_simetrico _ (pico PP) 101 39); cbn [pico].
    + lia.
    + rewrite (punto_IZR 101 101), (punto_IZR (101 + 39) 140) by reflexivity.
      lra.
    + intros i Hi. rewrite Hag.
      pose proof (punto_le i 100 ltac:(lia)) as H.
      rewrite (punto_IZR 100 100) in H by reflexivity.
      replace (fuerza PP (punto i)) with 0 by (unfold fuerza; casos_mf).
      casos_minmax.
    + intros i Hi. rewrite Hag.
      pose proof (punto_le 140 i ltac:(lia)) as H.
      rewrite (punto_IZR 140 140) in H by reflexivity.
      replace (fuerza PP (punto i)) with 0 by (unfold fuerza; casos_mf).
      casos_minmax.
    + intros u. rewrite !Hag. f_equal. unfold fuerza. casos_mf.
    + pose proof (suma_agregada_ge a v 120 ltac:(lia)) as H.
      rewrite Hag, (punto_IZR 120 120) in H by reflexivity.
      replace (fuerza PP (-50 + 120 * (1 / 2))) with 1 in H
        by (unfold fuerza; casos_mf).
      revert H. casos_minmax.
Qed.

(** X18: when the rules that fire all conclude the same triangular set of
    the force (NP, Z or PP), the controller returns the peak of that set
    (-10, 0 or 10), whatever the firing strengths. *)
Theorem calcular_fuerza_una_etiqueta
    (a v : R) (l : Etiqueta) (s : Simulacion) :
  l = NP \/ l = ZE \/ l = PP ->
  (forall l', l' <> l -> activacion l' (normalizar_angulo a) v = 0) ->
  0 < activacion l (normalizar_angulo a) v ->
  fst (calcular_fuerza a v s) = Valor (pico l).
Proof.
  intros Hl Hotras Hpos.
  rewrite calcular_fuerza_fst. unfold inferir.
  rewrite (centroide_triangular _ v l Hl Hotras Hpos). reflexivity.
Qed.

Lemma activacion_otras_en_0_menos_2 :
  forall l', l' <> PP -> activacion l' (normalizar_angulo 0) (-2) = 0.
Proof.
  intros l' Hl. rewrite normalizar_angulo_0, activacion_en_0_menos_2.
  destruct l'; congruence.
Qed.

Lemma activacion_PP_en_0_menos_2 :
  0 < activacion PP (normalizar_angulo 0) (-2).
Proof.
  rewrite normalizar_angulo_0, activacion_en_0_menos_2. lra.
Qed.

(** X18, at angle 0 and velocity -2, where only PP is active. *)
Lemma calcular_fuerza_una_etiqueta_en_0_menos_2 :
  (PP = NP \/ PP = ZE \/ PP = PP)
  /\ (forall l', l' <> PP -> activacion l' (normalizar_angulo 0) (-2) = 0)
  /\ 0 < activacion PP (normalizar_angulo 0) (-2)
  /\ fst (calcular_fuerza 0 (-2) simulador) = Valor (pico PP).
Proof.
  split; [right; right; reflexivity|].
  split; [exact activacion_otras_en_0_menos_2|].
  split; [exact activacion_PP_en_0_menos_2|].
  exact (calcular_fuerza_una_etiqueta 0 (-2) PP simulador
           (or_intror (or_intror eq_refl))
           activacion_otras_en_0_menos_2 activacion_PP_en_0_menos_2).
Defined.

(** ** Q. The closed loop *)

(** X19: in one iteration of the loop the velocity changes by at most
    dt · 12/7 · (9.81 + (50 + 0.1·v²) / 1.2), where v is the velocity
    before the iteration: the force of the controller is bounded and so is
    the acceleration. *)
Theorem paso_cambio_velocidad (e : Estado) (s : Simulacion) :
  exists e' s',
    paso e s = (Valor e', s')
    /\ Rabs (velocidad_actual e' - velocidad_actual e)
       <= 1 / 100
          * (12 / 7 * (981 / 100
                       + (50 + 1 / 10 * velocidad_actual e ^ 2) / (12 / 10))).
Proof.
  destruct (paso_siguiente e s) as (e' & s' & Hp & Hx & _).
  exists e', s'. split; [exact Hp|].
  assert (Ev : velocidad_actual e'
               = snd (siguiente (angulo_actual e, velocidad_actual e)))
    by (rewrite <- Hx; reflexivity).
  rewrite Ev. unfold siguiente. cbn [fst snd].
  set (a := angulo_actual e). set (v := velocidad_actual e).
  pose proof (aceleracion_cota a v (inferir a v)) as Hacc.
  pose proof (inferir_rango a v) as HF.
  assert (HabsF : Rabs (inferir a v) <= 50) by (apply Rabs_le; lra).
  set (acc := calcular_aceleracion_angular a v (inferir a v)) in *.
  replace (v + acc * paso_tiempo - v) with (1 / 100 * acc)
    by (unfold paso_tiempo; lra).
  rewrite Rabs_mult, (Rabs_right (1 / 100)) by lra.
  apply Rmult_le_compat_l; [lra|].
  eapply Rle_trans; [exact Hacc|].
  apply Rmult_le_compat_l; [lra|].
  apply Rplus_le_compat_l.
  apply Rmult_le_compat_r; [lra|]. lra.
Qed.

(** ** R. The ends of the interval and the state of the simulator *)






